(** * blocksim: the node communication core

    A shallow embedding of [blocksim/models/node.py] and
    [blocksim/node_factory.py], and the properties of the bounded
    known-item sets, of neighbour management, of [send] / [listening] and
    of node-population construction.

    Python objects are embedded as follows.
    - [int] is [Z]; [str] is [string]; a [set] of [str] is a [gset string].
    - A neighbour dictionary (the value stored in [self.neighbors]) is the
      record [Neighbor], one field per key.
    - [self.neighbors] is a [gmap string Neighbor].  The dictionaries and
      sets stored there are mutable objects; every one of them is created
      by [add_neighbors] and is referenced from exactly one key, so an
      in-place mutation through the key is an update of the map at that key.
    - Node objects are referred to by their [address].
    - The queue of a [Connection] object lives in a store indexed by the
      identity of the object.
    - A raised exception is a value of [exn]; a call returns a [result]
      together with the state it leaves behind. *)

From Stdlib Require Import ZArith Ascii String List Lia.
From Equations Require Import Equations.
From stdpp Require Import base option list gmap sets strings pretty.

Local Open Scope string_scope.
Local Open Scope list_scope.
#[local] Set Warnings "-clear-no-such-hyp".

(** ** Values *)

(** [Envelope = namedtuple('Envelope', 'msg, timestamp, destination, origin')] *)
Record Envelope := mkEnvelope {
  msg : string;
  timestamp : Z;
  destination : string;
  origin : string
}.

(** Modelled from the spec: the chain data model ([blocksim.models.chain],
    [blocksim.models.ethereum.block]) is an external collaborator; a chain
    supplies the genesis block a node starts with and exposes its [head]. *)
Inductive Block :=
| GenesisBlock
| MinedBlock (block_hash : string).

Record Chain := mkChain { head : Block }.

(** Modelled from the spec: [blocksim.models.network.Connection], a directed
    edge between two nodes with an unbounded FIFO delivery queue.  The two
    ends are fixed at construction; the queue is the mutable part of the
    object and is kept in [stores] of [Sim], at index [conn_id]. *)
Record Connection := mkConnection {
  conn_id : nat;
  origin_node : string;
  destination_node : string
}.

(** The dictionary [add_neighbors] stores for a neighbour, by key:
    ['connection'], ['head'], ['location'], ['address'], ['knownTxs'],
    ['knownBlocks'].  [None] for the connection is Python's [None]. *)
Record Neighbor := mkNeighbor {
  nb_connection : option Connection;
  nb_head : Block;
  nb_location : string;
  nb_address : string;
  knownTxs : gset string;
  knownBlocks : gset string
}.

Record Node := mkNode {
  transmission_speed : Z;
  location : string;
  address : string;
  neighbors : gmap string Neighbor;
  chain : Chain
}.

(** The simulation state the node code reads and writes besides [self]:
    the virtual clock [env.now] and the queue of every [Connection]. *)
Record Sim := mkSim {
  now : Z;
  stores : list (list Envelope)
}.

(** What the loop variable of [listening] can hold: an item of
    [dict.items()], which is a [(key, value)] tuple, or a dictionary. *)
Inductive pyobj :=
| PyTuple (key : string) (value : Neighbor)
| PyDict (d : Neighbor).

(** ** Exceptions *)

(** An argument of [str.format] or of an f-string; a message is kept as
    its template and its arguments. *)
Inductive fmt_arg :=
| FInt (z : Z)
| FStr (s : string)
| FStrs (l : list string)
| FObj (o : pyobj).

Inductive exn :=
| RuntimeError (template : string) (args : list fmt_arg)
| TypeError (message : string)
| KeyError (message : string)
| ValueError (template : string) (args : list fmt_arg).

Inductive result (A : Type) :=
| Ok (a : A)
| Raise (e : exn).
Arguments Ok {A} a.
Arguments Raise {A} e.

(** The error the spec calls [NeighborUnreachable]: the [RuntimeError] of
    [_get_neighbor]. *)
Definition NeighborUnreachable (neighbor_address self_address : string) : exn :=
  RuntimeError "Neighbor {} not reachable by the {}"
               [FStr neighbor_address; FStr self_address].

(** ** Constants *)

Definition MAX_KNOWN_TXS : Z := 30000.
Definition MAX_KNOWN_BLOCKS : Z := 1024.

(** ** Python sets *)

(** [len(s)] *)
Definition len (s : gset string) : Z := Z.of_nat (size s).

(** [s.add(x)] *)
Definition set_add (x : string) (s : gset string) : gset string := {[x]} ∪ s.

(** [s.pop()]: removes and returns an arbitrary member, [KeyError] on the
    empty set.  Which member is not determined by the program; [pick]
    names the member the run removes, and a [pick] outside the set stands
    for the first member in the enumeration of the set. *)
Definition set_pop (pick : string) (s : gset string) : result string * gset string :=
  match elements s with
  | [] => (Raise (KeyError "pop from an empty set"), s)
  | x :: _ =>
      let y := if decide (pick ∈ s) then pick else x in
      (Ok y, s ∖ {[y]})
  end.

Definition inspect {A : Type} (a : A) : {b : A | a = b} := exist _ a eq_refl.

(** [while len(s) >= bound: s.pop()].  [picks] gives the member each
    successive [pop] removes.  The set is mutated in place, so the set
    left behind is returned also when [pop] raises. *)
Equations? pop_while (bound : Z) (picks : list string) (s : gset string)
  : result unit * gset string by wf (size s) lt :=
pop_while bound picks s with decide (bound ≤ len s)%Z := {
  | right _ => (Ok tt, s)
  | left _ with inspect (set_pop (hd "" picks) s) := {
    | exist _ (Raise e, s') _ => (Raise e, s')
    | exist _ (Ok _, s') _ => pop_while bound (tl picks) s' } }.
Proof.
  unfold set_pop in *. destruct (elements s) as [|x rest] eqn:E; [discriminate|].
  match goal with H : (_, _) = (_, _) |- _ => injection H as _ <- end.
  apply subset_size, subset_difference_elem_of.
  case_decide; [done|]. apply elem_of_elements. rewrite E. left.
Qed.

(** ** [Node] *)

(** [Node.__init__]; registration in the network is [network.add_node(self)],
    with the network kept as the list of the addresses registered. *)
Definition Node_init (network : list string) (speed : Z) (loc addr : string)
  : Node * list string :=
  let genesis := GenesisBlock in
  (mkNode speed loc addr ∅ (mkChain genesis), (network ++ [addr])%list).

Definition set_neighbors (self : Node) (m : gmap string Neighbor) : Node :=
  mkNode (transmission_speed self) (location self) (address self) m (chain self).

(** Modelled from the spec: [Connection(env, origin, destination)], a new
    object with an empty queue. *)
Definition Connection_init (origin destination : string) (sim : Sim) : Connection * Sim :=
  (mkConnection (length (stores sim)) origin destination,
   mkSim (now sim) (stores sim ++ [[]])%list).

(** Modelled from the spec: [Connection.put(envelope)] enqueues and never
    blocks. *)
Definition Connection_put (connection : Connection) (envelope : Envelope) (sim : Sim) : Sim :=
  mkSim (now sim) (alter (λ q, q ++ [envelope])%list (conn_id connection) (stores sim)).

(** The body of the loop of [add_neighbors]. *)
Definition add_neighbor (st : Node * Sim) (node : Node) : Node * Sim :=
  let '(self, sim) := st in
  let '(connection, sim) := Connection_init (address self) (address node) sim in
  (set_neighbors self
     (<[address node :=
          mkNeighbor (Some connection) (head (chain node)) (location node)
                     (address node) {[ "" ]} {[ "" ]}]> (neighbors self)),
   sim).

(** [Node.add_neighbors(self, *nodes)] *)
Definition add_neighbors (self : Node) (nodes : list Node) (sim : Sim) : Node * Sim :=
  fold_left add_neighbor nodes (self, sim).

(** [Node._update_neighbors] *)
Definition _update_neighbors (self : Node) (new_neighbor : Neighbor) : Node :=
  let address := nb_address new_neighbor in
  set_neighbors self (<[address := new_neighbor]> (neighbors self)).

(** [Node._get_neighbor] *)
Definition _get_neighbor (self : Node) (neighbor_address : string) : result Neighbor :=
  match neighbors self !! neighbor_address with
  | None => Raise (NeighborUnreachable neighbor_address (address self))
  | Some neighbor => Ok neighbor
  end.

Definition set_knownBlocks (d : Neighbor) (s : gset string) : Neighbor :=
  mkNeighbor (nb_connection d) (nb_head d) (nb_location d) (nb_address d) (knownTxs d) s.

Definition set_knownTxs (d : Neighbor) (s : gset string) : Neighbor :=
  mkNeighbor (nb_connection d) (nb_head d) (nb_location d) (nb_address d) s (knownBlocks d).

(** [Node._mark_block].  [neighbor] is the dictionary stored under
    [neighbor_address] and [known_blocks] is the set stored in it, so the
    pops and the add are visible under that key as soon as they are done;
    [_update_neighbors] then stores the dictionary under its own
    ['address']. *)
Definition _mark_block (picks : list string) (block_hash neighbor_address : string)
    (self : Node) : result unit * Node :=
  match _get_neighbor self neighbor_address with
  | Raise e => (Raise e, self)
  | Ok neighbor =>
      let known_blocks := knownBlocks neighbor in
      match pop_while MAX_KNOWN_BLOCKS picks known_blocks with
      | (Raise e, known_blocks) =>
          (Raise e,
           set_neighbors self
             (<[neighbor_address := set_knownBlocks neighbor known_blocks]> (neighbors self)))
      | (Ok _, known_blocks) =>
          let known_blocks := set_add block_hash known_blocks in
          let neighbor := set_knownBlocks neighbor known_blocks in
          let self := set_neighbors self (<[neighbor_address := neighbor]> (neighbors self)) in
          (Ok tt, _update_neighbors self neighbor)
      end
  end.

(** [Node._mark_transaction] *)
Definition _mark_transaction (picks : list string) (tx_hash neighbor_address : string)
    (self : Node) : result unit * Node :=
  match _get_neighbor self neighbor_address with
  | Raise e => (Raise e, self)
  | Ok neighbor =>
      let known_txs := knownTxs neighbor in
      match pop_while MAX_KNOWN_TXS picks known_txs with
      | (Raise e, known_txs) =>
          (Raise e,
           set_neighbors self
             (<[neighbor_address := set_knownTxs neighbor known_txs]> (neighbors self)))
      | (Ok _, known_txs) =>
          let known_txs := set_add tx_hash known_txs in
          let neighbor := set_knownTxs neighbor known_txs in
          let self := set_neighbors self (<[neighbor_address := neighbor]> (neighbors self)) in
          (Ok tt, _update_neighbors self neighbor)
      end
  end.

(** The values the set object takes during [pop_while], in order. *)
Equations? pop_states (bound : Z) (picks : list string) (s : gset string)
  : list (gset string) by wf (size s) lt :=
pop_states bound picks s with decide (bound ≤ len s)%Z := {
  | right _ => [s]
  | left _ with inspect (set_pop (hd "" picks) s) := {
    | exist _ (Raise e, s') _ => [s]
    | exist _ (Ok _, s') _ => s :: pop_states bound (tl picks) s' } }.
Proof.
  unfold set_pop in *. destruct (elements s) as [|x rest] eqn:E; [discriminate|].
  match goal with H : (_, _) = (_, _) |- _ => injection H as _ <- end.
  apply subset_size, subset_difference_elem_of.
  case_decide; [done|]. apply elem_of_elements. rewrite E. left.
Qed.

(** The values a known-set takes during one [_mark_block] or
    [_mark_transaction]: through the pops, then after the add. *)
Definition mark_states (bound : Z) (picks : list string) (h : string) (s : gset string)
  : list (gset string) :=
  match pop_while bound picks s with
  | (Raise _, _) => pop_states bound picks s
  | (Ok _, s') => (pop_states bound picks s ++ [set_add h s'])%list
  end.

(** A call on a node, for sequences of calls.  A call that raises leaves
    the state it reached and the sequence goes on. *)
Inductive call :=
| AddNeighbors (nodes : list Node)
| MarkBlock (picks : list string) (block_hash neighbor_address : string)
| MarkTransaction (picks : list string) (tx_hash neighbor_address : string).

Definition run_call (st : Node * Sim) (c : call) : Node * Sim :=
  match c with
  | AddNeighbors nodes => add_neighbors (fst st) nodes (snd st)
  | MarkBlock picks h a => (snd (_mark_block picks h a (fst st)), snd st)
  | MarkTransaction picks h a => (snd (_mark_transaction picks h a (fst st)), snd st)
  end.

Definition run_calls (calls : list call) (st : Node * Sim) : Node * Sim :=
  fold_left run_call calls st.


(** ** Generators: [send] and [listening]

    A generator function is embedded as the function that resumes its
    frame: it runs the body from the point of suspension to the next
    [yield], to the end or to a raised exception. *)

(** The events the node code yields to the scheduler. *)
Inductive event :=
| Timeout (delay : Z)
| StoreGet (connection : Connection).

Inductive resumed (F : Type) :=
| Yield (ev : event) (frame : F)
| Return
| Raised (e : exn).
Arguments Yield {F} ev frame.
Arguments Return {F}.
Arguments Raised {F} e.

(** Modelled from the spec: the timed wait of the scheduler,
    [env.timeout(delay)]; the scheduler at hand (simpy) refuses a negative
    delay with a [ValueError]. *)
Definition env_timeout (delay : Z) : result event :=
  if decide (delay < 0)%Z
  then Raise (ValueError "Negative delay {}" [FInt delay])
  else Ok (Timeout delay).

(** Modelled from the spec: [Connection.get()], the event of the next
    envelope on the connection. *)
Definition Connection_get (connection : Connection) : event := StoreGet connection.

Inductive send_frame :=
| SendStart
| SendHandshake (connection : Connection)
| SendUpload (connection : Connection).

(** [Node.send]; [self] is the node as it is when the frame is resumed. *)
Definition send (destination_address : string) (upload_rate : Z) (msg : string)
    (frame : send_frame) (st : Node * Sim) : resumed send_frame * (Node * Sim) :=
  let '(self, sim) := st in
  match frame with
  | SendStart =>
      match _get_neighbor self destination_address with
      | Raise e => (Raised e, (self, sim))
      | Ok neighbor =>
          match nb_connection neighbor with
          | None =>
              (Raised (RuntimeError
                         "There is not a direct connection with the neighbor ({})"
                         [FObj (PyDict neighbor)]), (self, sim))
          | Some connection =>
              match env_timeout 3 with
              | Raise e => (Raised e, (self, sim))
              | Ok ev => (Yield ev (SendHandshake connection), (self, sim))
              end
          end
      end
  | SendHandshake connection =>
      match env_timeout upload_rate with
      | Raise e => (Raised e, (self, sim))
      | Ok ev => (Yield ev (SendUpload connection), (self, sim))
      end
  | SendUpload connection =>
      let envelope := mkEnvelope msg (now sim) (destination_node connection)
                                 (origin_node connection) in
      (Return, (self, Connection_put connection envelope sim))
  end.

(** [o['connection']] *)
Definition getitem_connection (o : pyobj) : result (option Connection) :=
  match o with
  | PyTuple _ _ => Raise (TypeError "tuple indices must be integers or slices, not str")
  | PyDict d => Ok (nb_connection d)
  end.

(** [self.neighbors.items()] *)
Definition items (m : gmap string Neighbor) : list pyobj :=
  (λ kv, PyTuple kv.1 kv.2) <$> map_to_list m.

Inductive listening_frame :=
| ListenStart
| ListenGet (connection : Connection) (rest : list pyobj)
| ListenDownload (connection : Connection) (rest : list pyobj).

(** The [for] loop of [listening] up to its first suspension.  The inner
    [while True] never ends, so the loop gets past its first item only by
    raising. *)
Definition listening_for (neighbor_items : list pyobj) : resumed listening_frame :=
  match neighbor_items with
  | [] => Return
  | neighbor :: rest =>
      match getitem_connection neighbor with
      | Raise e => Raised e
      | Ok None =>
          Raised (RuntimeError
                    "There is not a direct connection with the neighbor ({})"
                    [FObj neighbor])
      | Ok (Some connection) =>
          Yield (Connection_get connection) (ListenGet connection rest)
      end
  end.

(** [Node.listening]; the [print] calls are tracing and left out. *)
Definition listening (download_rate : Z) (frame : listening_frame) (st : Node * Sim)
  : resumed listening_frame * (Node * Sim) :=
  let '(self, sim) := st in
  match frame with
  | ListenStart => (listening_for (items (neighbors self)), (self, sim))
  | ListenGet connection rest =>
      match env_timeout download_rate with
      | Raise e => (Raised e, (self, sim))
      | Ok ev => (Yield ev (ListenDownload connection rest), (self, sim))
      end
  | ListenDownload connection rest =>
      (Yield (Connection_get connection) (ListenGet connection rest), (self, sim))
  end.

(** Modelled from the spec: the scheduler lets virtual time pass until a
    timeout is due. *)
Definition sleep (delay : Z) (sim : Sim) : Sim := mkSim (now sim + delay) (stores sim).

(** Modelled from the spec: the next envelope of a queue is taken from its
    head, if there is one. *)
Definition take (connection : Connection) (sim : Sim) : option (Envelope * Sim) :=
  match stores sim !! conn_id connection with
  | Some (envelope :: queue) =>
      Some (envelope, mkSim (now sim) (<[conn_id connection := queue]> (stores sim)))
  | _ => None
  end.

(** Modelled from the spec: a process of a node run alone by the
    scheduler.  It is resumed, and resumed again after each event it
    yields, at most [resumes] more times.  The result is what the last resumption gave: [Return] when the
    generator ran to its end, [Raised] when it raised, [Yield] when it is
    still suspended (on an empty queue, or after the last resumption
    allowed). *)
Fixpoint run_alone {F : Type} (resume : F → Node * Sim → resumed F * (Node * Sim))
    (resumes : nat) (frame : F) (st : Node * Sim) : resumed F * (Node * Sim) :=
  match resume frame st with
  | (Yield (Timeout delay) frame', (self, sim)) =>
      match resumes with
      | O => (Yield (Timeout delay) frame', (self, sim))
      | S resumes => run_alone resume resumes frame' (self, sleep delay sim)
      end
  | (Yield (StoreGet connection) frame', (self, sim)) =>
      match resumes, take connection sim with
      | S resumes, Some (_, sim') => run_alone resume resumes frame' (self, sim')
      | _, _ => (Yield (StoreGet connection) frame', (self, sim))
      end
  | r => r
  end.

(** ** [NodeFactory] *)

(** [self._world]: the fields the factory reads. *)
Record World := mkWorld {
  blockchain : string;
  locations : list string
}.

(** What [create_nodes] returns: a list of nodes or a string. *)
Inductive created (NodeT : Type) :=
| NodesList (nodes_list : list NodeT)
| Str (s : string).
Arguments NodesList {NodeT} nodes_list.
Arguments Str {NodeT} s.

(** A lower-casing for the examples: it lowers the ASCII capitals and
    leaves every other byte alone.  It is what [str.lower()] does on text
    whose capitals are all ASCII, and only there. *)
Definition lower_ascii (c : ascii) : ascii :=
  let n := nat_of_ascii c in
  if (65 <=? n)%nat && (n <=? 90)%nat then ascii_of_nat (n + 32) else c.

Fixpoint ascii_lower (s : string) : string :=
  match s with
  | EmptyString => EmptyString
  | String c s => String (lower_ascii c) (ascii_lower s)
  end.

(** [NodeFactory._check_location]; [miners] and [non_miners] are
    dictionaries from a location to its ['how_many'], in insertion order. *)
Fixpoint check_each (world : World) (nodes_location : list string) : result unit :=
  match nodes_location with
  | [] => Ok tt
  | location :: rest =>
      if decide (location ∈ locations world)
      then check_each world rest
      else Raise (RuntimeError
                    "There are not measurements for the location {}. Only available locations: {}"
                    [FStr location; FStrs (locations world)])
  end.

Definition _check_location (world : World) (miners non_miners : list (string * Z))
  : result unit :=
  let nodes_location := (miners.*1) ++ (non_miners.*1) in
  check_each world nodes_location.

Section NodeFactory.
(** Modelled from the spec: the node classes [BTCNode] and [ETHNode] and
    their [connect] are external to the core; [Net] is the state their
    constructors and [connect] work on (the network and the nodes in it),
    [NodeT] a reference to a node in it. *)
Context {NodeT Net : Type}.
Variable BTCNode : string → string → bool → Net → result NodeT * Net.
Variable ETHNode : string → string → bool → Net → result NodeT * Net.
Variable connect : NodeT → list NodeT → Net → result unit * Net.

(** [str.lower()] of Python, which lowers the capitals of every script; it
    is a built-in kept as a parameter. *)
Variable lower : string → string.

(** Calls on [Net] that may raise. *)
Definition M (A : Type) : Type := Net → result A * Net.

Definition ret {A : Type} (a : A) : M A := λ net, (Ok a, net).

Definition raise {A : Type} (e : exn) : M A := λ net, (Raise e, net).

Definition bind {A B : Type} (c : M A) (k : A → M B) : M B :=
  λ net, match c net with
         | (Ok a, net') => k a net'
         | (Raise e, net') => (Raise e, net')
         end.

Notation "x <~ c ;; k" := (bind c (λ x, k))
  (at level 100, c at next level, right associativity).

(** [for i in range(how_many)]: the next [how_many] nodes of a location. *)
Fixpoint create_range (ctor : string → string → bool → Net → result NodeT * Net)
    (is_mining : bool) (miner_location : string) (how_many : nat)
    (node_id : Z) (nodes : list NodeT) : M (Z * list NodeT) :=
  match how_many with
  | O => ret (node_id, nodes)
  | S how_many =>
      let node_id := (node_id + 1)%Z in
      let node_address := lower miner_location +:+ "-" +:+ pretty node_id in
      new <~ ctor miner_location node_address is_mining ;;
      create_range ctor is_mining miner_location how_many node_id (nodes ++ [new])%list
  end.

(** [for miner_location, _miners in miners.items()] *)
Fixpoint create_each (ctor : string → string → bool → Net → result NodeT * Net)
    (is_mining : bool) (population : list (string * Z))
    (node_id : Z) (nodes : list NodeT) : M (Z * list NodeT) :=
  match population with
  | [] => ret (node_id, nodes)
  | (miner_location, how_many) :: population =>
      r <~ create_range ctor is_mining miner_location (Z.to_nat how_many) node_id nodes ;;
      create_each ctor is_mining population r.1 r.2
  end.

(** [for node in nodes_list: node.connect(nodes_list)] *)
Fixpoint connect_each (nodes nodes_list : list NodeT) : M unit :=
  match nodes with
  | [] => ret tt
  | node :: nodes => _ <~ connect node nodes_list ;; connect_each nodes nodes_list
  end.

(** The body [create_bitcoin_nodes] and [create_ethereum_nodes] share,
    for the node class [ctor]. *)
Definition create_population (ctor : string → string → bool → Net → result NodeT * Net)
    (miners non_miners : list (string * Z)) : M (list NodeT) :=
  let node_id := 0%Z in
  r <~ create_each ctor true miners node_id [] ;;
  let miners_list := r.2 in
  r' <~ create_each ctor false non_miners r.1 [] ;;
  let non_miners_list := r'.2 in
  let nodes_list := (miners_list ++ non_miners_list)%list in
  _ <~ connect_each nodes_list nodes_list ;;
  ret nodes_list.

(** [NodeFactory.create_bitcoin_nodes] *)
Definition create_bitcoin_nodes := create_population BTCNode.

(** [NodeFactory.create_ethereum_nodes] *)
Definition create_ethereum_nodes := create_population ETHNode.

(** The values of [blockchain_switcher] and the default given to its
    [get]: a bound method of two arguments, or a [lambda] of none. *)
Inductive callable :=
| Method (f : list (string * Z) → list (string * Z) → M (list NodeT))
| Lambda0 (body : string).

(** [d.get(key, default)] *)
Fixpoint dict_get (d : list (string * callable)) (key : string) (default : callable)
  : callable :=
  match d with
  | [] => default
  | (k, v) :: d => if decide (k = key) then v else dict_get d key default
  end.

(** [f(miners, non_miners)] *)
Definition call2 (f : callable) (miners non_miners : list (string * Z))
  : M (created NodeT) :=
  match f with
  | Method f => nodes_list <~ f miners non_miners ;; ret (NodesList nodes_list)
  | Lambda0 _ => raise (TypeError "<lambda>() takes 0 positional arguments but 2 were given")
  end.

(** [NodeFactory.create_nodes] *)
Definition create_nodes (world : World) (miners non_miners : list (string * Z))
  : M (created NodeT) :=
  _ <~ (match _check_location world miners non_miners with
        | Ok u => ret u
        | Raise e => raise e
        end) ;;
  let blockchain_switcher :=
    [("bitcoin", Method create_bitcoin_nodes);
     ("ethereum", Method create_ethereum_nodes)] in
  call2 (dict_get blockchain_switcher (blockchain world) (Lambda0 "Invalid blockchain"))
        miners non_miners.
End NodeFactory.

(** ** Auxiliary notions for the statements *)

(** Every neighbour dictionary is stored under its own ['address']. *)
Definition keyed (self : Node) : Prop :=
  ∀ k d, neighbors self !! k = Some d → nb_address d = k.

(** Both known-sets of every neighbour are within their bounds. *)
Definition bounded (self : Node) : Prop :=
  ∀ k d, neighbors self !! k = Some d →
    (len (knownBlocks d) ≤ MAX_KNOWN_BLOCKS)%Z ∧ (len (knownTxs d) ≤ MAX_KNOWN_TXS)%Z.

(** The known-set after the pops and the add of one mark call. *)
Definition mark_one (bound : Z) (picks : list string) (h : string) (s : gset string)
  : gset string :=
  set_add h (pop_while bound picks s).2.

(** The known-set after one mark call per hash. *)
Fixpoint mark_all (bound : Z) (pickss : list (list string)) (hashes : list string)
    (s : gset string) : gset string :=
  match hashes with
  | [] => s
  | h :: hashes => mark_all bound (tl pickss) hashes (mark_one bound (hd [] pickss) h s)
  end.


(** A neighbour dictionary with its known-sets left out. *)
Definition forget_known (d : Neighbor) : Neighbor :=
  mkNeighbor (nb_connection d) (nb_head d) (nb_location d) (nb_address d) ∅ ∅.

(** Two nodes that differ at most in the known-sets of their neighbours. *)
Definition same_but_known (n1 n2 : Node) : Prop :=
  transmission_speed n1 = transmission_speed n2 ∧ location n1 = location n2 ∧
  address n1 = address n2 ∧ chain n1 = chain n2 ∧
  forget_known <$> neighbors n1 = forget_known <$> neighbors n2.

(** ** A small network, for the end-to-end scenarios *)

Definition sim0 : Sim := mkSim 0 [].

(** Nodes [a] and [b] as their constructors leave them. *)
Definition node_a0 : Node := (Node_init [] 10 "Ohio" "a").1.
Definition node_b0 : Node := (Node_init ["a"] 10 "Tokyo" "b").1.

(** [a.add_neighbors(b)] then [b.add_neighbors(a)]. *)
Definition node_a : Node := (add_neighbors node_a0 [node_b0] sim0).1.
Definition sim1 : Sim := (add_neighbors node_a0 [node_b0] sim0).2.
Definition node_b : Node := (add_neighbors node_b0 [node_a] sim1).1.
Definition sim2 : Sim := (add_neighbors node_b0 [node_a] sim1).2.

(** Hashes [t0], [t1], ... *)
Definition tx_hash (i : Z) : string := "t" +:+ pretty i.

(** A node class for the examples: a node is its address, and the state is
    the list of the addresses created. *)
Definition example_node (loc addr : string) (is_mining : bool) (net : list string)
  : result string * list string :=
  (Ok addr, net ++ [addr]).

Definition example_connect (node : string) (nodes_list : list string) (net : list string)
  : result unit * list string :=
  (Ok tt, net).

(** ** [ETHTransaction] *)

(** An Ethereum transaction.  [to], [sender], [value], [signature] and
    [fee] are what [__init__] hands to the base class [Transaction];
    [nonce], [gasprice] and [startgas] are set by [ETHTransaction] itself. *)
Record ETHTransaction := mkETHTransaction {
  to : string;
  sender : string;
  value : Z;
  signature : string;
  fee : Z;
  nonce : Z;
  gasprice : Z;
  startgas : Z
}.

(** [ETHTransaction.__init__].  [startgas = None] is a call without that
    argument, which takes the default [default_config['TX_BASE_GAS_COST']];
    the configuration is not among the sources and its value is the
    parameter [TX_BASE_GAS_COST]. *)
Definition ETHTransaction_init (TX_BASE_GAS_COST : Z) (to sender : string) (value : Z)
    (signature : string) (nonce gasprice : Z) (startgas : option Z) : ETHTransaction :=
  let startgas := default TX_BASE_GAS_COST startgas in
  let fee := (gasprice * startgas)%Z in
  mkETHTransaction to sender value signature fee nonce gasprice startgas.

(** The right operand of a comparison: an instance of the class of [self],
    or any other object. *)
Inductive operand :=
| Instance_ (other : ETHTransaction)
| OtherObject.

(** [ETHTransaction.__lt__] *)
Definition __lt__ (self : ETHTransaction) (other : operand) : bool :=
  match other with
  | Instance_ other => (gasprice self <? gasprice other)%Z
  | OtherObject => false
  end.

(** [ETHTransaction.__le__] *)
Definition __le__ (self : ETHTransaction) (other : operand) : bool :=
  match other with
  | Instance_ other => (gasprice self <=? gasprice other)%Z
  | OtherObject => false
  end.

(** [ETHTransaction.__gt__] *)
Definition __gt__ (self : ETHTransaction) (other : operand) : bool :=
  match other with
  | Instance_ other => (gasprice self >? gasprice other)%Z
  | OtherObject => false
  end.

(** [ETHTransaction.__ge__] *)
Definition __ge__ (self : ETHTransaction) (other : operand) : bool :=
  match other with
  | Instance_ other => (gasprice self >=? gasprice other)%Z
  | OtherObject => false
  end.

(** ** Notions for the statements on [NodeFactory] *)

(** The requested locations, each as many times as its ['how_many'], in the
    order of the dictionary; [range] of a number that is not positive is
    empty. *)
Definition expand (population : list (string * Z)) : list string :=
  flat_map (λ p, replicate (Z.to_nat p.2) p.1) population.

(** A node class that keeps what its constructor is called with: a node is
    its location, address and mining flag, and the state is the list of the
    nodes constructed so far. *)
Definition record_node (loc addr : string) (is_mining : bool)
    (net : list (string * string * bool))
  : result (string * string * bool) * list (string * string * bool) :=
  (Ok (loc, addr, is_mining), net ++ [(loc, addr, is_mining)]).

Definition record_connect (node : string * string * bool)
    (nodes_list : list (string * string * bool)) (net : list (string * string * bool))
  : result unit * list (string * string * bool) :=
  (Ok tt, net).

(** The nodes of the locations [locs], numbered from [node_id + 1] on. *)
Fixpoint numbered (lower : string → string) (is_mining : bool) (node_id : Z)
    (locs : list string) : list (string * string * bool) :=
  match locs with
  | [] => []
  | loc :: locs =>
      (loc, lower loc +:+ "-" +:+ pretty (node_id + 1)%Z, is_mining)
        :: numbered lower is_mining (node_id + 1) locs
  end.

(** A node with one neighbour [b] whose known-sets are full: the blocks
    [t0], ..., [t1023] and the transactions [t0], ..., [t29999]. *)
Definition full_blocks : gset string := list_to_set (tx_hash <$> seqZ 0 1024).
Definition full_txs : gset string := list_to_set (tx_hash <$> seqZ 0 30000).

Definition neighbor_full : Neighbor :=
  mkNeighbor None GenesisBlock "Tokyo" "b" full_txs full_blocks.

Definition node_full : Node :=
  mkNode 10 "Ohio" "a" {[ "b" := neighbor_full ]} (mkChain GenesisBlock).

(** * Properties *)

(** ** The eviction loop *)

Lemma set_pop_Ok_elem pick s y s' :
  set_pop pick s = (Ok y, s') → y ∈ s ∧ s' = s ∖ {[y]}.
Proof.
  unfold set_pop. destruct (elements s) as [|x l] eqn:E; [discriminate|].
  intros [= <- <-]. split; [|done].
  case_decide; [done|].
  apply elem_of_elements. rewrite E. left.
Qed.

Lemma set_pop_Ok_size pick s y s' :
  set_pop pick s = (Ok y, s') → (size s' < size s)%nat.
Proof.
  intros H. apply set_pop_Ok_elem in H. destruct H as [Hy Hs]. subst s'.
  by apply subset_size, subset_difference_elem_of.
Qed.

Lemma pop_while_eq bound picks s :
  pop_while bound picks s =
  if decide (bound ≤ len s)%Z then
    match set_pop (hd "" picks) s with
    | (Raise e, s') => (Raise e, s')
    | (Ok _, s') => pop_while bound (tl picks) s'
    end
  else (Ok tt, s).
Proof.
  rewrite pop_while_equation_1. unfold pop_while_unfold_clause_1.
  destruct (decide (bound ≤ len s)%Z); [|done].
  cbn. unfold inspect.
  by destruct (set_pop (hd "" picks) s) as [[y|e] s'].
Qed.

Lemma pop_states_eq bound picks s :
  pop_states bound picks s =
  if decide (bound ≤ len s)%Z then
    match set_pop (hd "" picks) s with
    | (Raise e, s') => [s]
    | (Ok _, s') => s :: pop_states bound (tl picks) s'
    end
  else [s].
Proof.
  rewrite pop_states_equation_1. unfold pop_states_unfold_clause_1.
  destruct (decide (bound ≤ len s)%Z); [|done].
  cbn. unfold inspect.
  by destruct (set_pop (hd "" picks) s) as [[y|e] s'].
Qed.

Lemma set_pop_Raise pick s e s' :
  set_pop pick s = (Raise e, s') → s = ∅ ∧ s' = ∅.
Proof.
  unfold set_pop. destruct (elements s) as [|x l] eqn:E; [|discriminate].
  apply elements_empty_inv in E. apply leibniz_equiv in E.
  intros [= <- <-]. done.
Qed.

Lemma set_pop_nonempty pick s :
  s ≠ ∅ → ∃ y, set_pop pick s = (Ok y, s ∖ {[y]}) ∧ y ∈ s.
Proof.
  intros Hs. destruct (set_pop pick s) as [[y|e] s'] eqn:E.
  - destruct (set_pop_Ok_elem _ _ _ _ E) as [Hy Hs']. subst s'. eauto.
  - by destruct (set_pop_Raise _ _ _ _ E).
Qed.

Lemma set_pop_pick pick s :
  pick ∈ s → set_pop pick s = (Ok pick, s ∖ {[pick]}).
Proof.
  intros Hp. unfold set_pop.
  destruct (elements s) as [|x l] eqn:E.
  - apply elem_of_elements in Hp. rewrite E in Hp. by apply elem_of_nil in Hp.
  - by rewrite decide_True.
Qed.

Lemma len_nonneg s : (0 ≤ len s)%Z.
Proof. unfold len. lia. Qed.

Lemma len_empty : len ∅ = 0%Z.
Proof. unfold len. by rewrite size_empty. Qed.

Lemma len_difference_elem y s : y ∈ s → len (s ∖ {[y]}) = (len s - 1)%Z.
Proof.
  intros Hy. unfold len.
  rewrite size_difference by set_solver. rewrite size_singleton.
  assert (size s ≠ 0)%nat; [|lia].
  intros Hz. apply size_empty_inv in Hz. set_solver.
Qed.

Lemma len_set_add_new h s : h ∉ s → len (set_add h s) = (len s + 1)%Z.
Proof.
  intros Hh. unfold len, set_add.
  rewrite size_union by set_solver. rewrite size_singleton. lia.
Qed.

Lemma set_add_old h s : h ∈ s → set_add h s = s.
Proof. unfold set_add. set_solver. Qed.

Lemma len_set_add_le h s : (len (set_add h s) ≤ len s + 1)%Z.
Proof.
  destruct (decide (h ∈ s)).
  - rewrite set_add_old by done. lia.
  - rewrite len_set_add_new by done. lia.
Qed.

Example pop_while_pops_down_to_bound :
  pop_while 2 ["b"; "c"] {[ "a"; "b"; "c" ]} = (Ok tt, {[ "a" ]}).
Proof. vm_compute. reflexivity. Qed.

Example pop_while_below_bound :
  pop_while 2 ["a"] {[ "a" ]} = (Ok tt, {[ "a" ]}).
Proof. vm_compute. reflexivity. Qed.

Example mark_states_at_bound :
  mark_states 3 ["b"] "d" {[ "a"; "b"; "c" ]} =
  [ {[ "a"; "b"; "c" ]}; {[ "a"; "c" ]}; {[ "a"; "c"; "d" ]} ].
Proof. vm_compute. reflexivity. Qed.

(** Induction along the iterations of the loop. *)
Lemma pop_while_ind (bound : Z) (P : list string → gset string → result unit * gset string → Prop) :
  (∀ picks s, ¬ (bound ≤ len s)%Z → P picks s (Ok tt, s)) →
  (∀ picks s e, (bound ≤ len s)%Z → s = ∅ →
     set_pop (hd "" picks) s = (Raise e, ∅) → P picks s (Raise e, ∅)) →
  (∀ picks s y, (bound ≤ len s)%Z → y ∈ s →
     set_pop (hd "" picks) s = (Ok y, s ∖ {[y]}) →
     P (tl picks) (s ∖ {[y]}) (pop_while bound (tl picks) (s ∖ {[y]})) →
     P picks s (pop_while bound (tl picks) (s ∖ {[y]}))) →
  ∀ picks s, P picks s (pop_while bound picks s).
Proof.
  intros Hexit Hraise Hpop picks s.
  remember (size s) as n eqn:Hn. revert picks s Hn.
  induction n as [n IH] using lt_wf_ind. intros picks s ->.
  rewrite pop_while_eq. case_decide; [|by apply Hexit].
  destruct (set_pop (hd "" picks) s) as [[y|e] s'] eqn:E.
  - destruct (set_pop_Ok_elem _ _ _ _ E) as [Hy Hs']. subst s'.
    apply (Hpop _ _ y); [done..|].
    eapply IH; [|done]. by eapply set_pop_Ok_size.
  - destruct (set_pop_Raise _ _ _ _ E) as [-> ->]. by apply Hraise.
Qed.

(** The loop leaves a subset, below the bound when it ends normally. *)
Lemma pop_while_Ok bound picks s s' :
  pop_while bound picks s = (Ok tt, s') → s' ⊆ s ∧ (len s' < bound)%Z.
Proof.
  revert s'. pattern picks, s, (pop_while bound picks s). apply pop_while_ind; clear.
  - intros picks s Hlt s' [= <-]. split; [done|lia].
  - intros picks s e _ _ _ s'. discriminate.
  - intros picks s y _ Hy _ IH s' Hs'. destruct (IH _ Hs'). split; [set_solver|done].
Qed.

(** [pop] raises only on the empty set, which the loop reaches only under a
    bound that is not positive. *)
Lemma pop_while_Raise bound picks s e s' :
  pop_while bound picks s = (Raise e, s') → (bound ≤ 0)%Z ∧ s' = ∅.
Proof.
  revert s'. pattern picks, s, (pop_while bound picks s). apply pop_while_ind; clear - e.
  - intros picks s _ s'. discriminate.
  - intros picks s e' Hb -> _ s' [= -> <-]. rewrite len_empty in Hb. done.
  - intros picks s y _ _ _ IH s' Hs'. by apply IH.
Qed.

(** Under a positive bound the loop ends normally. *)
Lemma pop_while_total bound picks s :
  (0 < bound)%Z → ∃ s', pop_while bound picks s = (Ok tt, s').
Proof.
  intros Hb. destruct (pop_while bound picks s) as [[[]|e] s'] eqn:E; [by eauto|].
  apply pop_while_Raise in E. lia.
Qed.

Lemma pop_while_below bound picks s :
  (len s < bound)%Z → pop_while bound picks s = (Ok tt, s).
Proof. intros Hlt. rewrite pop_while_eq. rewrite decide_False; [done|lia]. Qed.

(** On a set exactly at the bound the loop pops once. *)
Lemma pop_while_full bound picks s :
  (0 < bound)%Z → len s = bound →
  ∃ y, y ∈ s ∧ (hd "" picks ∈ s → y = hd "" picks) ∧
       pop_while bound picks s = (Ok tt, s ∖ {[y]}).
Proof.
  intros Hb Hlen. rewrite pop_while_eq. rewrite decide_True by lia.
  destruct (set_pop (hd "" picks) s) as [[y|e] s'] eqn:E.
  - destruct (set_pop_Ok_elem _ _ _ _ E) as [Hy ->].
    exists y. split; [done|]. split.
    + intros Hp. rewrite set_pop_pick in E by done. congruence.
    + apply pop_while_below. rewrite len_difference_elem by done. lia.
  - destruct (set_pop_Raise _ _ _ _ E) as [-> _]. rewrite len_empty in Hlen. lia.
Qed.

(** Every value the set takes during the loop is a subset of the first. *)
Lemma pop_states_subset bound picks s :
  Forall (λ t, t ⊆ s) (pop_states bound picks s).
Proof.
  remember (size s) as n eqn:Hn. revert picks s Hn.
  induction n as [n IH] using lt_wf_ind. intros picks s ->.
  rewrite pop_states_eq. case_decide; [|by repeat constructor].
  destruct (set_pop (hd "" picks) s) as [[y|e] s'] eqn:E; [|by repeat constructor].
  constructor; [done|].
  pose proof (set_pop_Ok_size _ _ _ _ E) as Hlt.
  destruct (set_pop_Ok_elem _ _ _ _ E) as [_ ->].
  eapply Forall_impl; [by eapply IH|].
  intros t Ht. simpl in Ht. set_solver.
Qed.

Lemma subseteq_len (s t : gset string) : s ⊆ t → (len s ≤ len t)%Z.
Proof. intros Hst. unfold len. apply subseteq_size in Hst. lia. Qed.

(** One mark call keeps the set within a positive bound at every moment. *)
Lemma mark_states_bounded bound picks h s :
  (0 < bound)%Z → (len s ≤ bound)%Z →
  Forall (λ t, (len t ≤ bound)%Z) (mark_states bound picks h s).
Proof.
  intros Hb Hs.
  assert (Forall (λ t, (len t ≤ bound)%Z) (pop_states bound picks s)) as Hpops.
  { eapply Forall_impl; [apply pop_states_subset|].
    intros t Ht. simpl in Ht. apply subseteq_len in Ht. lia. }
  unfold mark_states.
  destruct (pop_while bound picks s) as [[[]|e] s'] eqn:E; [|done].
  apply Forall_app. split; [done|]. constructor; [|constructor].
  apply pop_while_Ok in E as [_ Hlt].
  pose proof (len_set_add_le h s'). lia.
Qed.

Lemma mark_one_bounded bound picks h s :
  (0 < bound)%Z → (len (mark_one bound picks h s) ≤ bound)%Z.
Proof.
  intros Hb. unfold mark_one.
  destruct (pop_while_total bound picks s Hb) as [s' E]. rewrite E. simpl.
  apply pop_while_Ok in E as [_ Hlt].
  pose proof (len_set_add_le h s'). lia.
Qed.

(** ** Marking on a node *)

Lemma get_neighbor_None self a :
  neighbors self !! a = None →
  _get_neighbor self a = Raise (NeighborUnreachable a (address self)).
Proof. intros H. unfold _get_neighbor. by rewrite H. Qed.

Lemma get_neighbor_Some self a d :
  neighbors self !! a = Some d → _get_neighbor self a = Ok d.
Proof. intros H. unfold _get_neighbor. by rewrite H. Qed.

(** What [_mark_block] does for a neighbour stored under its own address. *)
Lemma mark_block_Some picks h a self d :
  neighbors self !! a = Some d → nb_address d = a →
  _mark_block picks h a self =
  (Ok tt, set_neighbors self
            (<[a := set_knownBlocks d (mark_one MAX_KNOWN_BLOCKS picks h (knownBlocks d))]>
               (neighbors self))).
Proof.
  intros Hd Ha. unfold _mark_block. rewrite (get_neighbor_Some _ _ _ Hd).
  unfold mark_one.
  destruct (pop_while_total MAX_KNOWN_BLOCKS picks (knownBlocks d)) as [s' E]; [done|].
  rewrite E. simpl. unfold _update_neighbors, set_neighbors. simpl.
  rewrite Ha. by rewrite insert_insert_eq.
Qed.

Lemma mark_transaction_Some picks h a self d :
  neighbors self !! a = Some d → nb_address d = a →
  _mark_transaction picks h a self =
  (Ok tt, set_neighbors self
            (<[a := set_knownTxs d (mark_one MAX_KNOWN_TXS picks h (knownTxs d))]>
               (neighbors self))).
Proof.
  intros Hd Ha. unfold _mark_transaction. rewrite (get_neighbor_Some _ _ _ Hd).
  unfold mark_one.
  destruct (pop_while_total MAX_KNOWN_TXS picks (knownTxs d)) as [s' E]; [done|].
  rewrite E. simpl. unfold _update_neighbors, set_neighbors. simpl.
  rewrite Ha. by rewrite insert_insert_eq.
Qed.

Example mark_block_on_node_a :
  knownBlocks <$> neighbors (_mark_block [] "h1" "b" node_a).2 !! "b" = Some {[ "h1"; "" ]}.
Proof. vm_compute. reflexivity. Qed.

(** ** The invariants of a node built through its methods *)

Lemma Node_init_keyed network speed loc addr : keyed (Node_init network speed loc addr).1.
Proof. intros k d. simpl. by rewrite lookup_empty. Qed.

Lemma Node_init_bounded network speed loc addr : bounded (Node_init network speed loc addr).1.
Proof. intros k d. simpl. by rewrite lookup_empty. Qed.

Lemma add_neighbor_inv self sim node :
  keyed self → bounded self →
  keyed (add_neighbor (self, sim) node).1 ∧ bounded (add_neighbor (self, sim) node).1.
Proof.
  intros Hk Hb. unfold add_neighbor, Connection_init, keyed, bounded. simpl.
  split; intros k d; rewrite lookup_insert; case_decide.
  - by intros [= <-].
  - apply Hk.
  - intros [= <-]. simpl. unfold len. rewrite size_singleton.
    unfold MAX_KNOWN_BLOCKS, MAX_KNOWN_TXS. lia.
  - apply Hb.
Qed.

Lemma add_neighbors_inv nodes self sim :
  keyed self → bounded self →
  keyed (add_neighbors self nodes sim).1 ∧ bounded (add_neighbors self nodes sim).1.
Proof.
  unfold add_neighbors. revert self sim.
  induction nodes as [|node nodes IH]; intros self sim Hk Hb; [done|].
  cbn [fold_left].
  destruct (add_neighbor_inv self sim node Hk Hb) as [Hk' Hb'].
  destruct (add_neighbor (self, sim) node) as [self' sim'].
  by apply IH.
Qed.

Lemma mark_block_inv picks h a self :
  keyed self → bounded self →
  keyed (_mark_block picks h a self).2 ∧ bounded (_mark_block picks h a self).2.
Proof.
  intros Hk Hb. destruct (neighbors self !! a) as [d|] eqn:Hd.
  - rewrite (mark_block_Some _ _ _ _ d Hd (Hk _ _ Hd)). simpl.
    split; intros k d'; simpl; rewrite lookup_insert; case_decide;
      try (by (apply Hk || apply Hb)).
    + intros [= <-]. simpl. subst k. by apply Hk.
    + intros [= <-]. simpl. split; [by apply mark_one_bounded|by apply (Hb a d)].
  - unfold _mark_block. by rewrite (get_neighbor_None _ _ Hd).
Qed.

Lemma mark_transaction_inv picks h a self :
  keyed self → bounded self →
  keyed (_mark_transaction picks h a self).2 ∧ bounded (_mark_transaction picks h a self).2.
Proof.
  intros Hk Hb. destruct (neighbors self !! a) as [d|] eqn:Hd.
  - rewrite (mark_transaction_Some _ _ _ _ d Hd (Hk _ _ Hd)). simpl.
    split; intros k d'; simpl; rewrite lookup_insert; case_decide;
      try (by (apply Hk || apply Hb)).
    + intros [= <-]. simpl. subst k. by apply Hk.
    + intros [= <-]. simpl. split; [by apply (Hb a d)|by apply mark_one_bounded].
  - unfold _mark_transaction. by rewrite (get_neighbor_None _ _ Hd).
Qed.

Lemma run_call_inv c self sim :
  keyed self → bounded self →
  keyed (run_call (self, sim) c).1 ∧ bounded (run_call (self, sim) c).1.
Proof.
  intros Hk Hb. destruct c as [nodes|picks h a|picks h a]; simpl.
  - by apply add_neighbors_inv.
  - by apply mark_block_inv.
  - by apply mark_transaction_inv.
Qed.

Lemma run_calls_inv calls self sim :
  keyed self → bounded self →
  keyed (run_calls calls (self, sim)).1 ∧ bounded (run_calls calls (self, sim)).1.
Proof.
  unfold run_calls. revert self sim.
  induction calls as [|c calls IH]; intros self sim Hk Hb; [done|].
  cbn [fold_left].
  destruct (run_call_inv c self sim Hk Hb) as [Hk' Hb'].
  destruct (run_call (self, sim) c) as [self' sim'].
  by apply IH.
Qed.

(** C1.  For a node built by its constructor, after any sequence of
    [add_neighbors], [_mark_block] and [_mark_transaction] calls, with any
    hashes, any addresses and any members removed by [pop], every neighbour
    has at most 1024 known blocks and at most 30000 known transactions; and
    every value either set takes during a further mark call, through the
    pops and after the add, is within the same bound. *)
Theorem known_sets_bounded network speed loc addr sim calls K d :
  neighbors (run_calls calls ((Node_init network speed loc addr).1, sim)).1 !! K = Some d →
  ((len (knownBlocks d) ≤ 1024)%Z ∧ (len (knownTxs d) ≤ 30000)%Z) ∧
  ∀ picks h,
    Forall (λ s, (len s ≤ 1024)%Z) (mark_states MAX_KNOWN_BLOCKS picks h (knownBlocks d)) ∧
    Forall (λ s, (len s ≤ 30000)%Z) (mark_states MAX_KNOWN_TXS picks h (knownTxs d)).
Proof.
  intros Hd.
  destruct (run_calls_inv calls (Node_init network speed loc addr).1 sim) as [_ Hb].
  { apply Node_init_keyed. }
  { apply Node_init_bounded. }
  destruct (Hb K d Hd) as [Hblocks Htxs]. split; [done|].
  intros picks h. split.
  - by apply (mark_states_bounded MAX_KNOWN_BLOCKS).
  - by apply (mark_states_bounded MAX_KNOWN_TXS).
Qed.

Lemma known_sets_bounded_witness :
  let d := mkNeighbor (Some (mkConnection 0 "a" "b")) GenesisBlock "Tokyo" "b"
                      {[ "t1"; "" ]} {[ "h1"; "" ]} in
  ((len (knownBlocks d) ≤ 1024)%Z ∧ (len (knownTxs d) ≤ 30000)%Z) ∧
  ∀ picks h,
    Forall (λ s, (len s ≤ 1024)%Z) (mark_states MAX_KNOWN_BLOCKS picks h (knownBlocks d)) ∧
    Forall (λ s, (len s ≤ 30000)%Z) (mark_states MAX_KNOWN_TXS picks h (knownTxs d)).
Proof.
  apply (known_sets_bounded [] 10 "Ohio" "a" sim0
           [AddNeighbors [node_b0]; MarkBlock [] "h1" "b"; MarkTransaction [] "t1" "b";
            MarkBlock [] "h2" "c"]
           "b").
  vm_compute. reflexivity.
Defined.

(** ** An unknown neighbour *)

(** C5.  [_mark_block] and [_mark_transaction] for an address that has no
    entry in the neighbour map raise the error of [_get_neighbor]
    (NeighborUnreachable). *)
Theorem mark_unknown_neighbor_raises picks h a self :
  neighbors self !! a = None →
  (_mark_block picks h a self).1 = Raise (NeighborUnreachable a (address self)) ∧
  (_mark_transaction picks h a self).1 = Raise (NeighborUnreachable a (address self)).
Proof.
  intros Ha. unfold _mark_block, _mark_transaction.
  by rewrite (get_neighbor_None _ _ Ha).
Qed.

Lemma mark_unknown_neighbor_raises_witness :
  (_mark_block [] "h1" "c" node_a).1 = Raise (NeighborUnreachable "c" "a") ∧
  (_mark_transaction [] "h1" "c" node_a).1 = Raise (NeighborUnreachable "c" "a").
Proof.
  apply (mark_unknown_neighbor_raises [] "h1" "c" node_a).
  vm_compute. reflexivity.
Defined.

(** C10.  A [_mark_block] or [_mark_transaction] call for an address that
    has no entry in the neighbour map leaves the node exactly as it was:
    neighbour map, known-sets, heads and connections. *)
Theorem mark_unknown_neighbor_unchanged picks h a self :
  neighbors self !! a = None →
  (_mark_block picks h a self).2 = self ∧ (_mark_transaction picks h a self).2 = self.
Proof.
  intros Ha. unfold _mark_block, _mark_transaction.
  by rewrite (get_neighbor_None _ _ Ha).
Qed.

Lemma mark_unknown_neighbor_unchanged_witness :
  (_mark_block [] "h1" "c" node_a).2 = node_a ∧
  (_mark_transaction [] "h1" "c" node_a).2 = node_a.
Proof.
  apply (mark_unknown_neighbor_unchanged [] "h1" "c" node_a).
  vm_compute. reflexivity.
Defined.

(** ** [add_neighbors] *)

Lemma add_neighbors_app self l1 l2 sim :
  add_neighbors self (l1 ++ l2) sim =
  add_neighbors (add_neighbors self l1 sim).1 l2 (add_neighbors self l1 sim).2.
Proof.
  unfold add_neighbors. rewrite fold_left_app.
  by destruct (fold_left add_neighbor l1 (self, sim)).
Qed.

Lemma add_neighbors_cons self node nodes sim :
  add_neighbors self (node :: nodes) sim =
  add_neighbors (add_neighbor (self, sim) node).1 nodes (add_neighbor (self, sim) node).2.
Proof.
  unfold add_neighbors. cbn [fold_left].
  by destruct (add_neighbor (self, sim) node).
Qed.

(** Adding nodes leaves the entries of the other addresses alone. *)
Lemma add_neighbors_other nodes self sim k :
  k ∉ address <$> nodes →
  neighbors (add_neighbors self nodes sim).1 !! k = neighbors self !! k.
Proof.
  revert self sim. induction nodes as [|node nodes IH]; intros self sim Hk; [done|].
  rewrite add_neighbors_cons.
  rewrite fmap_cons in Hk. apply not_elem_of_cons in Hk as [Hne Hk].
  rewrite IH by done.
  unfold add_neighbor, Connection_init. simpl. by rewrite lookup_insert_ne.
Qed.

(** C2, as the code has it.  Right after [add_neighbors] returns, the
    neighbour state installed for a node passed to it (the last one passed
    with that address) has known-sets that each hold exactly the empty
    string, so are of size 1, whether or not the node was a neighbour
    before; its head is the chain head of that node. *)
Theorem add_neighbors_installs self pre node post sim :
  address node ∉ address <$> post →
  ∃ d, neighbors (add_neighbors self (pre ++ node :: post) sim).1 !! address node = Some d ∧
       knownBlocks d = {[ "" ]} ∧ knownTxs d = {[ "" ]} ∧
       len (knownBlocks d) = 1%Z ∧ len (knownTxs d) = 1%Z ∧
       nb_head d = head (chain node).
Proof.
  intros Hpost. rewrite add_neighbors_app, add_neighbors_cons.
  rewrite add_neighbors_other by done.
  destruct (add_neighbors self pre sim) as [self' sim'].
  unfold add_neighbor, Connection_init. simpl. rewrite lookup_insert_eq.
  eexists. split; [done|]. simpl. unfold len. by rewrite size_singleton.
Qed.

Lemma add_neighbors_installs_witness :
  ∃ d, neighbors (add_neighbors (_mark_block [] "h1" "b" node_a).2
                                ([] ++ node_b0 :: []) sim1).1 !! "b" = Some d ∧
       knownBlocks d = {[ "" ]} ∧ knownTxs d = {[ "" ]} ∧
       len (knownBlocks d) = 1%Z ∧ len (knownTxs d) = 1%Z ∧
       nb_head d = GenesisBlock.
Proof.
  apply (add_neighbors_installs (_mark_block [] "h1" "b" node_a).2 [] node_b0 [] sim1).
  vm_compute. intros H. inversion H.
Defined.

(** C2, as the spec states it, fails: after [a.add_neighbors(b)] the
    known-sets of [b] are not empty. *)
Lemma add_neighbors_known_sets_not_empty :
  ¬ (∀ self nodes sim node, node ∈ nodes →
       ∃ d, neighbors (add_neighbors self nodes sim).1 !! address node = Some d ∧
            len (knownBlocks d) = 0%Z ∧ len (knownTxs d) = 0%Z ∧
            nb_head d = head (chain node)).
Proof.
  intros H.
  destruct (H node_a0 [node_b0] sim0 node_b0) as (d & Hd & Hblocks & _).
  { apply list_elem_of_singleton. reflexivity. }
  vm_compute in Hd. injection Hd as <-.
  vm_compute in Hblocks. discriminate.
Qed.

(** ** Many marks for one neighbour *)

Lemma pop_while_subset bound picks s : (pop_while bound picks s).2 ⊆ s.
Proof.
  pattern picks, s, (pop_while bound picks s). apply pop_while_ind; clear.
  - done.
  - intros picks s e _ -> _. done.
  - intros picks s y _ _ _ IH. set_solver.
Qed.

Lemma mark_one_subset bound picks h s : mark_one bound picks h s ⊆ {[h]} ∪ s.
Proof.
  unfold mark_one, set_add. pose proof (pop_while_subset bound picks s). set_solver.
Qed.

Lemma mark_one_below bound picks h s :
  (len s < bound)%Z → mark_one bound picks h s = set_add h s.
Proof. intros Hlt. unfold mark_one. by rewrite pop_while_below. Qed.

Lemma mark_one_full bound picks h s :
  (0 < bound)%Z → len s = bound →
  ∃ y, y ∈ s ∧ (hd "" picks ∈ s → y = hd "" picks) ∧
       mark_one bound picks h s = set_add h (s ∖ {[y]}).
Proof.
  intros Hb Hlen. destruct (pop_while_full bound picks s Hb Hlen) as (y & Hy & Hp & E).
  exists y. unfold mark_one. by rewrite E.
Qed.

Lemma mark_all_subset bound pickss hashes s :
  mark_all bound pickss hashes s ⊆ list_to_set hashes ∪ s.
Proof.
  revert pickss s. induction hashes as [|h hashes IH]; intros pickss s; simpl.
  - set_solver.
  - pose proof (IH (tl pickss) (mark_one bound (hd [] pickss) h s)).
    pose proof (mark_one_subset bound (hd [] pickss) h s). set_solver.
Qed.




Lemma set_knownTxs_id d : set_knownTxs d (knownTxs d) = d.
Proof. by destruct d. Qed.



Lemma tx_hash_inj i j : tx_hash i = tx_hash j → i = j.
Proof. unfold tx_hash. simpl. intros H. injection H as H. by apply (inj pretty). Qed.

Lemma tx_hashes_NoDup n : NoDup (tx_hash <$> seqZ 0 n).
Proof.
  apply NoDup_fmap_2_strong; [|apply NoDup_seqZ].
  intros i j _ _. apply tx_hash_inj.
Qed.


Lemma tx_hashes_length n : (0 ≤ n)%Z → Z.of_nat (length (tx_hash <$> seqZ 0 n)) = n.
Proof. intros Hn. rewrite length_fmap, length_seqZ. lia. Qed.








(** ** [send] *)

Lemma send_node dest upload_rate msg frame self sim :
  (send dest upload_rate msg frame (self, sim)).2.1 = self.
Proof.
  unfold send. destruct frame; simpl; [|by case_match|done].
  destruct (_get_neighbor self dest) as [d|e]; [|done].
  destruct (nb_connection d); done.
Qed.

(** A process whose resumptions leave the node alone leaves it alone in
    any run. *)
Lemma run_alone_node {F : Type} (resume : F → Node * Sim → resumed F * (Node * Sim)) :
  (∀ frame self sim, (resume frame (self, sim)).2.1 = self) →
  ∀ resumes frame self sim, (run_alone resume resumes frame (self, sim)).2.1 = self.
Proof.
  intros Hres. induction resumes as [|resumes IH]; intros frame self sim; simpl;
    pose proof (Hres frame self sim) as Hnode;
    destruct (resume frame (self, sim)) as [[[delay|c] frame'| |e] [self' sim']];
    simpl in Hnode; subst self'; try done.
  all: first [apply IH | destruct (take c sim') as [[? ?]|]; [apply IH|done]].
Qed.

(** Running [send] never changes the node, however far the run gets. *)
Lemma run_send_node dest upload_rate msg resumes frame self sim :
  (run_alone (send dest upload_rate msg) resumes frame (self, sim)).2.1 = self.
Proof. apply run_alone_node. intros. apply send_node. Qed.

(** C3.  [send] to an address that has no entry in the neighbour map
    raises the error of [_get_neighbor] (NeighborUnreachable) the first
    time it is resumed, before any timeout is yielded: the clock and every
    queue are as they were. *)
Theorem send_unknown_neighbor dest upload_rate msg self sim :
  neighbors self !! dest = None →
  send dest upload_rate msg SendStart (self, sim) =
    (Raised (NeighborUnreachable dest (address self)), (self, sim)) ∧
  ∀ resumes,
    run_alone (send dest upload_rate msg) resumes SendStart (self, sim) =
      (Raised (NeighborUnreachable dest (address self)), (self, sim)).
Proof.
  intros Hd.
  assert (send dest upload_rate msg SendStart (self, sim) =
          (Raised (NeighborUnreachable dest (address self)), (self, sim))) as Hstart.
  { unfold send. by rewrite (get_neighbor_None _ _ Hd). }
  split; [done|]. intros [|resumes]; cbn [run_alone]; by rewrite Hstart.
Qed.

Lemma send_unknown_neighbor_witness :
  send "c" 5 "tx1" SendStart (node_a, sim2) =
    (Raised (NeighborUnreachable "c" "a"), (node_a, sim2)) ∧
  ∀ resumes,
    run_alone (send "c" 5 "tx1") resumes SendStart (node_a, sim2) =
      (Raised (NeighborUnreachable "c" "a"), (node_a, sim2)).
Proof.
  apply (send_unknown_neighbor "c" 5 "tx1" node_a sim2).
  vm_compute. reflexivity.
Defined.

(** To a registered neighbour, and with an upload rate that is not
    negative, [send] runs to its end: three resumptions, 3 + [upload_rate]
    units of virtual time, and one envelope at the tail of the queue. *)
Lemma send_completes dest upload_rate msg self sim d connection :
  neighbors self !! dest = Some d → nb_connection d = Some connection →
  (0 ≤ upload_rate)%Z →
  run_alone (send dest upload_rate msg) 2 SendStart (self, sim) =
  (Return,
   (self,
    Connection_put connection
      (mkEnvelope msg (now sim + 3 + upload_rate)
                  (destination_node connection) (origin_node connection))
      (sleep upload_rate (sleep 3 sim)))).
Proof.
  intros Hd Hc Hrate. simpl.
  rewrite (get_neighbor_Some _ _ _ Hd), Hc. simpl.
  unfold env_timeout. rewrite decide_False by lia. done.
Qed.

Lemma same_but_known_lookup n1 n2 k :
  same_but_known n1 n2 →
  forget_known <$> neighbors n1 !! k = forget_known <$> neighbors n2 !! k.
Proof. intros (_ & _ & _ & _ & H). by rewrite <- !lookup_fmap, H. Qed.

(** A resumption of [send] that does not raise goes the same way for a node
    with other known-sets. *)
Lemma send_same_but_known dest upload_rate msg frame n1 n2 sim r sim' :
  same_but_known n1 n2 →
  send dest upload_rate msg frame (n1, sim) = (r, (n1, sim')) →
  (∀ e, r ≠ Raised e) →
  send dest upload_rate msg frame (n2, sim) = (r, (n2, sim')).
Proof.
  intros Hsame Hsend Hr. destruct frame as [|c|c]; simpl in *.
  - pose proof (same_but_known_lookup n1 n2 dest Hsame) as Hlook.
    unfold _get_neighbor in *.
    destruct (neighbors n1 !! dest) as [d1|], (neighbors n2 !! dest) as [d2|];
      simpl in Hlook; try discriminate.
    + injection Hlook as Hc _ _ _. rewrite <- Hc.
      destruct (nb_connection d1); simpl in *.
      * by injection Hsend as <- <-.
      * injection Hsend as <- _. by destruct (Hr _ eq_refl).
    + injection Hsend as <- _. by destruct (Hr _ eq_refl).
  - destruct (env_timeout upload_rate); by injection Hsend as <- <-.
  - by injection Hsend as <- <-.
Qed.

Lemma run_alone_same {F : Type} (resume : F → Node * Sim → resumed F * (Node * Sim)) n1 n2 :
  (∀ frame sim, (resume frame (n1, sim)).2.1 = n1) →
  (∀ frame sim r sim',
     resume frame (n1, sim) = (r, (n1, sim')) → (∀ e, r ≠ Raised e) →
     resume frame (n2, sim) = (r, (n2, sim'))) →
  ∀ resumes frame sim sim',
    run_alone resume resumes frame (n1, sim) = (Return, (n1, sim')) →
    run_alone resume resumes frame (n2, sim) = (Return, (n2, sim')).
Proof.
  intros Hnode Hsame.
  induction resumes as [|resumes IH]; intros frame sim sim' Hrun; simpl in *;
    pose proof (Hnode frame sim) as Hn;
    destruct (resume frame (n1, sim)) as [r [self1 sim1]] eqn:Hres;
    simpl in Hn; subst self1;
    (destruct r as [[delay|c] frame'| |e]; [| | |discriminate]);
    rewrite (Hsame _ _ _ _ Hres) by done; try done.
  all: first [by injection Hrun as <- | by apply IH
             | destruct (take c sim1) as [[? ?]|]; [by apply IH|done]].
Qed.

Lemma run_send_same_but_known dest upload_rate msg resumes n1 n2 :
  same_but_known n1 n2 →
  ∀ frame sim sim',
    run_alone (send dest upload_rate msg) resumes frame (n1, sim) = (Return, (n1, sim')) →
    run_alone (send dest upload_rate msg) resumes frame (n2, sim) = (Return, (n2, sim')).
Proof.
  intros Hsame. apply run_alone_same.
  - intros. apply send_node.
  - intros frame sim r sim'. by apply send_same_but_known.
Qed.

(** C7.  When [send] to a registered neighbour has run to its end, the
    known transactions and known blocks the node keeps for every neighbour
    are what they were; and the run does not depend on them: from a node
    that differs only in its known-sets it goes the same way, to the same
    queues and clock. *)
Theorem send_keeps_known_sets dest upload_rate msg resumes self sim self' sim' :
  is_Some (neighbors self !! dest) →
  run_alone (send dest upload_rate msg) resumes SendStart (self, sim) = (Return, (self', sim')) →
  (∀ k, knownTxs <$> neighbors self' !! k = knownTxs <$> neighbors self !! k) ∧
  (∀ k, knownBlocks <$> neighbors self' !! k = knownBlocks <$> neighbors self !! k) ∧
  (∀ other, same_but_known self other →
     run_alone (send dest upload_rate msg) resumes SendStart (other, sim) =
       (Return, (other, sim'))).
Proof.
  intros _ Hrun.
  pose proof (run_send_node dest upload_rate msg resumes SendStart self sim) as Hnode.
  rewrite Hrun in Hnode. simpl in Hnode. subst self'.
  split; [done|]. split; [done|].
  intros other Hsame. by apply (run_send_same_but_known _ _ _ _ self).
Qed.

Lemma send_keeps_known_sets_witness :
  let sim3 := mkSim 8 [[mkEnvelope "tx1" 8 "b" "a"]; []] in
  (∀ k, knownTxs <$> neighbors node_a !! k = knownTxs <$> neighbors node_a !! k) ∧
  (∀ k, knownBlocks <$> neighbors node_a !! k = knownBlocks <$> neighbors node_a !! k) ∧
  (∀ other, same_but_known node_a other →
     run_alone (send "b" 5 "tx1") 2 SendStart (other, sim2) = (Return, (other, sim3))).
Proof.
  apply (send_keeps_known_sets "b" 5 "tx1" 2 node_a sim2 node_a).
  - vm_compute. eexists. reflexivity.
  - vm_compute. reflexivity.
Defined.

(** ** [listening] *)

Lemma items_nonempty (m : gmap string Neighbor) :
  m ≠ ∅ → ∃ key value rest, items m = PyTuple key value :: rest.
Proof.
  intros Hm. unfold items.
  destruct (map_to_list m) as [|[key value] rest] eqn:E.
  - by apply map_to_list_empty_iff in E.
  - by exists key, value, ((λ kv, PyTuple kv.1 kv.2) <$> rest).
Qed.

(** With at least one neighbour, [listening] raises [TypeError] the first
    time it is resumed: the loop variable is an item of [items()], a tuple,
    and is subscripted with a string.  It never gets to wait for an
    envelope. *)
Lemma listening_raises download_rate self sim :
  neighbors self ≠ ∅ →
  ∀ resumes,
    run_alone (listening download_rate) resumes ListenStart (self, sim) =
    (Raised (TypeError "tuple indices must be integers or slices, not str"), (self, sim)).
Proof.
  intros Hm resumes.
  assert (listening download_rate ListenStart (self, sim) =
          (Raised (TypeError "tuple indices must be integers or slices, not str"),
           (self, sim))) as Hstart.
  { unfold listening. destruct (items_nonempty _ Hm) as (key & value & rest & ->). done. }
  destruct resumes; cbn [run_alone]; by rewrite Hstart.
Qed.

(** Without neighbours, [listening] ends at once. *)
Lemma listening_no_neighbors download_rate self sim :
  neighbors self = ∅ →
  listening download_rate ListenStart (self, sim) = (Return, (self, sim)).
Proof. intros Hm. unfold listening, items. rewrite Hm, map_to_list_empty. done. Qed.

(** C4, on the code.  Nodes [a] and [b] wired to each other, virtual time
    0.  [a.send('b', 5, 'tx1')] runs to its end and leaves, at time 8, the
    envelope [('tx1', 8, b, a)] on the connection from [a] to [b]; but
    [b.listening(download_rate)] raises [TypeError] as soon as it is
    started, however long it is run, so [b] receives nothing. *)
Theorem scenario_send_then_listening (download_rate : Z) (resumes : nat) :
  run_alone (send "b" 5 "tx1") 2 SendStart (node_a, sim2) =
    (Return, (node_a, mkSim 8 [[mkEnvelope "tx1" 8 "b" "a"]; []])) ∧
  nb_connection <$> neighbors node_a !! "b" = Some (Some (mkConnection 0 "a" "b")) ∧
  nb_connection <$> neighbors node_b !! "a" = Some (Some (mkConnection 1 "b" "a")) ∧
  run_alone (listening download_rate) resumes ListenStart
            (node_b, mkSim 8 [[mkEnvelope "tx1" 8 "b" "a"]; []]) =
    (Raised (TypeError "tuple indices must be integers or slices, not str"),
     (node_b, mkSim 8 [[mkEnvelope "tx1" 8 "b" "a"]; []])) ∧
  run_alone (listening download_rate) resumes ListenStart (node_b, sim2) =
    (Raised (TypeError "tuple indices must be integers or slices, not str"),
     (node_b, sim2)).
Proof.
  assert (neighbors node_b ≠ ∅) as Hne.
  { intros Hm. assert (neighbors node_b !! "a" = None) as Hl by (by rewrite Hm).
    vm_compute in Hl. discriminate. }
  split; [by vm_compute|]. split; [by vm_compute|]. split; [by vm_compute|].
  split; by apply listening_raises.
Qed.

(** ** [NodeFactory] *)

Section NodeFactoryProperties.
Context {NodeT Net : Type}.
Variable BTCNode : string → string → bool → Net → result NodeT * Net.
Variable ETHNode : string → string → bool → Net → result NodeT * Net.
Variable connect : NodeT → list NodeT → Net → result unit * Net.
Variable lower : string → string.

(** [_check_location] raises for the first requested location that is
    not known, and only then. *)
Lemma check_each_Raise world nodes_location :
  (∃ location, location ∈ nodes_location ∧ location ∉ locations world) →
  ∃ location, location ∈ nodes_location ∧ (location ∉ locations world) ∧
    check_each world nodes_location =
    Raise (RuntimeError
             "There are not measurements for the location {}. Only available locations: {}"
             [FStr location; FStrs (locations world)]).
Proof.
  induction nodes_location as [|location rest IH]; intros (bad & Hin & Hbad).
  - by apply elem_of_nil in Hin.
  - simpl. case_decide as Hknown.
    + apply elem_of_cons in Hin as [->|Hin]; [done|].
      destruct IH as (location' & Hin' & Hbad' & ->); [by eauto|].
      exists location'. split; [by right|done].
    + exists location. split; [by left|done].
Qed.

Lemma check_each_Ok world nodes_location :
  (∀ location, location ∈ nodes_location → location ∈ locations world) →
  check_each world nodes_location = Ok tt.
Proof.
  induction nodes_location as [|location rest IH]; intros Hall; [done|].
  simpl. rewrite decide_True by (apply Hall; left).
  apply IH. intros l Hl. apply Hall. by right.
Qed.

(** C8.  When some requested location, of the miners or of the
    non-miners, is not among the locations of the world, [create_nodes]
    raises a [RuntimeError] whose message names such a location and lists
    the locations of the world; the state the node constructors work on
    is as it was, whatever the constructors are: no node has been
    created. *)
Theorem create_nodes_unknown_location world miners non_miners net :
  (∃ location, location ∈ (miners.*1) ++ (non_miners.*1) ∧ location ∉ locations world) →
  ∃ location, location ∈ (miners.*1) ++ (non_miners.*1) ∧ (location ∉ locations world) ∧
    create_nodes BTCNode ETHNode connect lower world miners non_miners net =
    (Raise (RuntimeError
              "There are not measurements for the location {}. Only available locations: {}"
              [FStr location; FStrs (locations world)]),
     net).
Proof.
  intros Hbad. destruct (check_each_Raise world _ Hbad) as (location & Hin & Hnot & E).
  exists location. split; [done|]. split; [done|].
  unfold create_nodes, _check_location, bind. by rewrite E.
Qed.

(** C9, on the code.  With every requested location known and a
    blockchain that is neither ['bitcoin'] nor ['ethereum'],
    [create_nodes] does not return the string: the default of the
    switcher is a [lambda] without parameters, and calling it with
    [miners] and [non_miners] raises [TypeError]. *)
Theorem create_nodes_invalid_blockchain world miners non_miners net :
  blockchain world ≠ "bitcoin" → blockchain world ≠ "ethereum" →
  (∀ location, location ∈ (miners.*1) ++ (non_miners.*1) → location ∈ locations world) →
  create_nodes BTCNode ETHNode connect lower world miners non_miners net =
  (Raise (TypeError "<lambda>() takes 0 positional arguments but 2 were given"), net).
Proof.
  intros Hbtc Heth Hall.
  unfold create_nodes, _check_location, bind.
  rewrite (check_each_Ok world _ Hall). simpl.
  rewrite !decide_False by congruence. done.
Qed.
End NodeFactoryProperties.

Example create_nodes_bitcoin :
  create_nodes example_node example_node example_connect ascii_lower
               (mkWorld "bitcoin" ["Ohio"; "Tokyo"]) [("Ohio", 2%Z)] [("Tokyo", 1%Z)] [] =
  (Ok (NodesList ["ohio-1"; "ohio-2"; "tokyo-3"]), ["ohio-1"; "ohio-2"; "tokyo-3"]).
Proof. vm_compute. reflexivity. Qed.

Lemma create_nodes_unknown_location_witness :
  ∃ location, location ∈ ([("Ohio", 2%Z)].*1) ++ ([("Mars", 1%Z)].*1) ∧
              (location ∉ locations (mkWorld "bitcoin" ["Ohio"; "Tokyo"])) ∧
    create_nodes example_node example_node example_connect ascii_lower
                 (mkWorld "bitcoin" ["Ohio"; "Tokyo"]) [("Ohio", 2%Z)] [("Mars", 1%Z)] [] =
    (Raise (RuntimeError
              "There are not measurements for the location {}. Only available locations: {}"
              [FStr location; FStrs (locations (mkWorld "bitcoin" ["Ohio"; "Tokyo"]))]),
     []).
Proof.
  apply (create_nodes_unknown_location example_node example_node example_connect ascii_lower
           (mkWorld "bitcoin" ["Ohio"; "Tokyo"]) [("Ohio", 2%Z)] [("Mars", 1%Z)] []).
  exists "Mars". split.
  - simpl. right. left.
  - simpl. intros H. repeat (apply elem_of_cons in H as [H|H]; [discriminate|]).
    by apply elem_of_nil in H.
Defined.

Lemma create_nodes_invalid_blockchain_witness :
  create_nodes example_node example_node example_connect ascii_lower
               (mkWorld "dogecoin" ["Ohio"; "Tokyo"]) [("Ohio", 2%Z)] [("Tokyo", 1%Z)] [] =
  (Raise (TypeError "<lambda>() takes 0 positional arguments but 2 were given"), []).
Proof.
  apply (create_nodes_invalid_blockchain example_node example_node example_connect ascii_lower
           (mkWorld "dogecoin" ["Ohio"; "Tokyo"]) [("Ohio", 2%Z)] [("Tokyo", 1%Z)] []).
  - simpl. discriminate.
  - simpl. discriminate.
  - simpl. intros location H.
    apply elem_of_cons in H as [->|H]; [left|].
    apply elem_of_cons in H as [->|H]; [right; left|].
    by apply elem_of_nil in H.
Defined.

(** * Further properties *)

(** ** Marking, for a registered neighbour *)

(** The node after [_mark_block] for a registered neighbour. *)
Lemma mark_block_registered picks h a self d :
  neighbors self !! a = Some d →
  _mark_block picks h a self =
  (Ok tt,
   set_neighbors self
     (<[nb_address d := set_knownBlocks d (mark_one MAX_KNOWN_BLOCKS picks h (knownBlocks d))]>
        (<[a := set_knownBlocks d (mark_one MAX_KNOWN_BLOCKS picks h (knownBlocks d))]>
           (neighbors self)))).
Proof.
  intros Hd. unfold _mark_block. rewrite (get_neighbor_Some _ _ _ Hd).
  unfold mark_one.
  destruct (pop_while_total MAX_KNOWN_BLOCKS picks (knownBlocks d)) as [s' E]; [done|].
  rewrite E. done.
Qed.

Lemma mark_transaction_registered picks h a self d :
  neighbors self !! a = Some d →
  _mark_transaction picks h a self =
  (Ok tt,
   set_neighbors self
     (<[nb_address d := set_knownTxs d (mark_one MAX_KNOWN_TXS picks h (knownTxs d))]>
        (<[a := set_knownTxs d (mark_one MAX_KNOWN_TXS picks h (knownTxs d))]>
           (neighbors self)))).
Proof.
  intros Hd. unfold _mark_transaction. rewrite (get_neighbor_Some _ _ _ Hd).
  unfold mark_one.
  destruct (pop_while_total MAX_KNOWN_TXS picks (knownTxs d)) as [s' E]; [done|].
  rewrite E. done.
Qed.

Lemma lookup_insert_twice (m : gmap string Neighbor) a b d :
  <[b := d]> (<[a := d]> m) !! a = Some d.
Proof.
  destruct (decide (b = a)) as [->|Hne].
  - by rewrite lookup_insert_eq.
  - rewrite lookup_insert_ne by done. by rewrite lookup_insert_eq.
Qed.

(** The values listed by [mark_states] end with the set the mark call
    stores. *)
Lemma pop_states_last bound picks s :
  last (pop_states bound picks s) = Some (pop_while bound picks s).2.
Proof.
  remember (size s) as n eqn:Hn. revert picks s Hn.
  induction n as [n IH] using lt_wf_ind. intros picks s ->.
  rewrite pop_states_eq, pop_while_eq. case_decide; [|done].
  destruct (set_pop (hd "" picks) s) as [[y|e] s'] eqn:E.
  - pose proof (set_pop_Ok_size _ _ _ _ E) as Hlt.
    rewrite <- (IH _ Hlt (tl picks) s' eq_refl).
    rewrite pop_states_eq. by repeat case_match.
  - by destruct (set_pop_Raise _ _ _ _ E) as [-> ->].
Qed.

Lemma mark_states_last picks h a self d :
  neighbors self !! a = Some d →
  last (mark_states MAX_KNOWN_BLOCKS picks h (knownBlocks d)) =
    knownBlocks <$> neighbors (_mark_block picks h a self).2 !! a ∧
  last (mark_states MAX_KNOWN_TXS picks h (knownTxs d)) =
    knownTxs <$> neighbors (_mark_transaction picks h a self).2 !! a.
Proof.
  intros Hd.
  rewrite (mark_block_registered _ _ _ _ _ Hd), (mark_transaction_registered _ _ _ _ _ Hd).
  cbn [fst snd neighbors set_neighbors]. rewrite !lookup_insert_twice.
  unfold mark_states, mark_one.
  destruct (pop_while_total MAX_KNOWN_BLOCKS picks (knownBlocks d)) as [sb ->]; [done|].
  destruct (pop_while_total MAX_KNOWN_TXS picks (knownTxs d)) as [st ->]; [done|].
  by rewrite !last_snoc.
Qed.

(** What one mark call keeps of the set: as many of the old members as
    there were, at most one less than the bound. *)
Lemma mark_one_kept bound picks h s :
  (0 < bound)%Z →
  ∃ kept, mark_one bound picks h s = {[h]} ∪ kept ∧ kept ⊆ s ∧
          len kept = Z.min (len s) (bound - 1).
Proof.
  intros Hb. unfold mark_one, set_add.
  exists (pop_while bound picks s).2. split; [done|].
  split; [apply pop_while_subset|].
  pattern picks, s, (pop_while bound picks s). apply pop_while_ind; clear - Hb.
  - intros picks s Hlt. simpl. lia.
  - intros picks s e Hle -> _. rewrite len_empty in Hle. lia.
  - intros picks s y Hle Hy _ IH. rewrite IH.
    rewrite len_difference_elem by done. lia.
Qed.

(** X1.  For a registered neighbour, [_mark_block] and [_mark_transaction]
    return normally (the eviction loop never pops from an empty set) and
    the hash is then a member of the known-set of that neighbour. *)
Theorem mark_makes_known picks h a self d :
  neighbors self !! a = Some d →
  ((_mark_block picks h a self).1 = Ok tt ∧
   ∃ d', neighbors (_mark_block picks h a self).2 !! a = Some d' ∧ h ∈ knownBlocks d') ∧
  ((_mark_transaction picks h a self).1 = Ok tt ∧
   ∃ d', neighbors (_mark_transaction picks h a self).2 !! a = Some d' ∧ h ∈ knownTxs d').
Proof.
  intros Hd.
  rewrite (mark_block_registered _ _ _ _ _ Hd), (mark_transaction_registered _ _ _ _ _ Hd).
  cbn [fst snd neighbors set_neighbors]. rewrite !lookup_insert_twice.
  split; (split; [done|]); eexists; (split; [done|]); simpl;
    unfold mark_one, set_add; set_solver.
Qed.

Lemma mark_makes_known_witness :
  ((_mark_block [] "h1" "b" node_a).1 = Ok tt ∧
   ∃ d', neighbors (_mark_block [] "h1" "b" node_a).2 !! "b" = Some d' ∧
         "h1" ∈ knownBlocks d') ∧
  ((_mark_transaction [] "h1" "b" node_a).1 = Ok tt ∧
   ∃ d', neighbors (_mark_transaction [] "h1" "b" node_a).2 !! "b" = Some d' ∧
         "h1" ∈ knownTxs d').
Proof.
  apply (mark_makes_known [] "h1" "b" node_a
           (mkNeighbor (Some (mkConnection 0 "a" "b")) GenesisBlock "Tokyo" "b"
                       {[ "" ]} {[ "" ]})).
  vm_compute. reflexivity.
Defined.

(** X2.  What a mark call does to the known-set of a registered neighbour:
    the new set is the hash together with members of the old set, as many
    of them as there were but at most one less than the bound (1024 blocks,
    30000 transactions). *)
Theorem mark_keeps_up_to_bound picks h a self d :
  neighbors self !! a = Some d →
  (∃ d' kept, neighbors (_mark_block picks h a self).2 !! a = Some d' ∧
     knownBlocks d' = {[h]} ∪ kept ∧ kept ⊆ knownBlocks d ∧
     len kept = Z.min (len (knownBlocks d)) 1023) ∧
  (∃ d' kept, neighbors (_mark_transaction picks h a self).2 !! a = Some d' ∧
     knownTxs d' = {[h]} ∪ kept ∧ kept ⊆ knownTxs d ∧
     len kept = Z.min (len (knownTxs d)) 29999).
Proof.
  intros Hd.
  rewrite (mark_block_registered _ _ _ _ _ Hd), (mark_transaction_registered _ _ _ _ _ Hd).
  cbn [fst snd neighbors set_neighbors]. rewrite !lookup_insert_twice.
  destruct (mark_one_kept MAX_KNOWN_BLOCKS picks h (knownBlocks d)) as (kb & Eb & Hb & Lb);
    [done|].
  destruct (mark_one_kept MAX_KNOWN_TXS picks h (knownTxs d)) as (kt & Et & Ht & Lt);
    [done|].
  split.
  - eexists _, kb. split; [done|]. simpl. rewrite Eb. done.
  - eexists _, kt. split; [done|]. simpl. rewrite Et. done.
Qed.

Lemma mark_keeps_up_to_bound_witness :
  let d := mkNeighbor (Some (mkConnection 0 "a" "b")) GenesisBlock "Tokyo" "b"
                      {[ "" ]} {[ "" ]} in
  (∃ d' kept, neighbors (_mark_block [] "h1" "b" node_a).2 !! "b" = Some d' ∧
     knownBlocks d' = {[ "h1" ]} ∪ kept ∧ kept ⊆ knownBlocks d ∧
     len kept = Z.min (len (knownBlocks d)) 1023) ∧
  (∃ d' kept, neighbors (_mark_transaction [] "h1" "b" node_a).2 !! "b" = Some d' ∧
     knownTxs d' = {[ "h1" ]} ∪ kept ∧ kept ⊆ knownTxs d ∧
     len kept = Z.min (len (knownTxs d)) 29999).
Proof.
  apply (mark_keeps_up_to_bound [] "h1" "b" node_a).
  vm_compute. reflexivity.
Defined.

(** X3.  A mark call for a registered neighbour changes nothing but one
    known-set of that neighbour: the node keeps its own fields, every
    neighbour stored under another address is as it was, [_mark_block]
    leaves the known transactions and [_mark_transaction] the known blocks
    alone. *)
Theorem mark_changes_one_set picks h a self d :
  neighbors self !! a = Some d →
  (∀ after, after = (_mark_block picks h a self).2 ∨
            after = (_mark_transaction picks h a self).2 →
     address after = address self ∧ location after = location self ∧
     chain after = chain self ∧ transmission_speed after = transmission_speed self ∧
     ∀ k, k ≠ a → k ≠ nb_address d → neighbors after !! k = neighbors self !! k) ∧
  (∃ d', neighbors (_mark_block picks h a self).2 !! a = Some d' ∧
         set_knownBlocks d (knownBlocks d') = d') ∧
  (∃ d', neighbors (_mark_transaction picks h a self).2 !! a = Some d' ∧
         set_knownTxs d (knownTxs d') = d').
Proof.
  intros Hd.
  rewrite (mark_block_registered _ _ _ _ _ Hd), (mark_transaction_registered _ _ _ _ _ Hd).
  cbn [fst snd]. split; [|split].
  - intros after [->| ->]; (repeat (split; [done|])); intros k Hka Hkd; simpl;
      by rewrite !lookup_insert_ne.
  - cbn [neighbors set_neighbors]. rewrite lookup_insert_twice. by eexists.
  - cbn [neighbors set_neighbors]. rewrite lookup_insert_twice. by eexists.
Qed.

Lemma mark_changes_one_set_witness :
  let d := mkNeighbor (Some (mkConnection 0 "a" "b")) GenesisBlock "Tokyo" "b"
                      {[ "" ]} {[ "" ]} in
  (∀ after, after = (_mark_block [] "h1" "b" node_a).2 ∨
            after = (_mark_transaction [] "h1" "b" node_a).2 →
     address after = address node_a ∧ location after = location node_a ∧
     chain after = chain node_a ∧ transmission_speed after = transmission_speed node_a ∧
     ∀ k, k ≠ "b" → k ≠ nb_address d → neighbors after !! k = neighbors node_a !! k) ∧
  (∃ d', neighbors (_mark_block [] "h1" "b" node_a).2 !! "b" = Some d' ∧
         set_knownBlocks d (knownBlocks d') = d') ∧
  (∃ d', neighbors (_mark_transaction [] "h1" "b" node_a).2 !! "b" = Some d' ∧
         set_knownTxs d (knownTxs d') = d').
Proof.
  apply (mark_changes_one_set [] "h1" "b" node_a).
  vm_compute. reflexivity.
Defined.

(** X4.  Below the bound nothing is evicted: while the known blocks of a
    registered neighbour are fewer than 1024, [_mark_block] only adds the
    hash to them, whatever its known transactions; and while its known
    transactions are fewer than 30000, [_mark_transaction] only adds the
    hash to them, whatever its known blocks. *)
Theorem mark_below_bound picks h a self d :
  neighbors self !! a = Some d →
  ((len (knownBlocks d) < 1024)%Z →
   ∃ d', neighbors (_mark_block picks h a self).2 !! a = Some d' ∧
         knownBlocks d' = {[h]} ∪ knownBlocks d) ∧
  ((len (knownTxs d) < 30000)%Z →
   ∃ d', neighbors (_mark_transaction picks h a self).2 !! a = Some d' ∧
         knownTxs d' = {[h]} ∪ knownTxs d).
Proof.
  intros Hd.
  rewrite (mark_block_registered _ _ _ _ _ Hd), (mark_transaction_registered _ _ _ _ _ Hd).
  cbn [fst snd neighbors set_neighbors]. rewrite !lookup_insert_twice.
  split; intros Hlt; rewrite mark_one_below by done; by eexists.
Qed.

Lemma mark_below_bound_witness :
  let d := mkNeighbor (Some (mkConnection 0 "a" "b")) GenesisBlock "Tokyo" "b"
                      {[ "" ]} {[ "" ]} in
  (∃ d', neighbors (_mark_block [] "h1" "b" node_a).2 !! "b" = Some d' ∧
         knownBlocks d' = {[ "h1" ]} ∪ knownBlocks d) ∧
  (∃ d', neighbors (_mark_transaction [] "h1" "b" node_a).2 !! "b" = Some d' ∧
         knownTxs d' = {[ "h1" ]} ∪ knownTxs d).
Proof.
  intros d.
  destruct (mark_below_bound [] "h1" "b" node_a d) as [Hblocks Htxs].
  - vm_compute. reflexivity.
  - split; [apply Hblocks|apply Htxs]; vm_compute; reflexivity.
Defined.

Lemma len_tx_hashes n : (0 ≤ n)%Z → len (list_to_set (tx_hash <$> seqZ 0 n)) = n.
Proof.
  intros Hn. unfold len. rewrite size_list_to_set by apply tx_hashes_NoDup.
  by apply tx_hashes_length.
Qed.

(** X5.  On a full known-set a mark call evicts exactly one member before
    it adds the hash, the member [pop] picks; it does so even when the hash
    is already known, and the set then ends one below the bound unless the
    hash itself was the member evicted.  [_mark_block] does so when the
    known blocks are 1024, whatever the known transactions, and
    [_mark_transaction] when the known transactions are 30000, whatever the
    known blocks. *)
Theorem mark_full_set picks h a self d :
  neighbors self !! a = Some d →
  (len (knownBlocks d) = 1024%Z →
   ∃ y d', y ∈ knownBlocks d ∧ (hd "" picks ∈ knownBlocks d → y = hd "" picks) ∧
     neighbors (_mark_block picks h a self).2 !! a = Some d' ∧
     knownBlocks d' = {[h]} ∪ (knownBlocks d ∖ {[y]}) ∧
     (h ∈ knownBlocks d → y ≠ h → len (knownBlocks d') = 1023%Z)) ∧
  (len (knownTxs d) = 30000%Z →
   ∃ y d', y ∈ knownTxs d ∧ (hd "" picks ∈ knownTxs d → y = hd "" picks) ∧
     neighbors (_mark_transaction picks h a self).2 !! a = Some d' ∧
     knownTxs d' = {[h]} ∪ (knownTxs d ∖ {[y]}) ∧
     (h ∈ knownTxs d → y ≠ h → len (knownTxs d') = 29999%Z)).
Proof.
  intros Hd.
  rewrite (mark_block_registered _ _ _ _ _ Hd), (mark_transaction_registered _ _ _ _ _ Hd).
  cbn [fst snd neighbors set_neighbors]. rewrite !lookup_insert_twice.
  split.
  - intros Hb.
    destruct (mark_one_full MAX_KNOWN_BLOCKS picks h (knownBlocks d)) as (y & Hy & Hp & E);
      [done|done|].
    exists y. eexists. split; [done|]. split; [done|]. split; [done|].
    simpl. rewrite E. split; [done|]. intros Hh Hne.
    rewrite set_add_old by set_solver. rewrite len_difference_elem by done. lia.
  - intros Ht.
    destruct (mark_one_full MAX_KNOWN_TXS picks h (knownTxs d)) as (y & Hy & Hp & E);
      [done|done|].
    exists y. eexists. split; [done|]. split; [done|]. split; [done|].
    simpl. rewrite E. split; [done|]. intros Hh Hne.
    rewrite set_add_old by set_solver. rewrite len_difference_elem by done. lia.
Qed.

Lemma mark_full_set_witness :
  let d := neighbor_full in
  (∃ y d', y ∈ knownBlocks d ∧ (hd "" ["t0"] ∈ knownBlocks d → y = hd "" ["t0"]) ∧
     neighbors (_mark_block ["t0"] "t1" "b" node_full).2 !! "b" = Some d' ∧
     knownBlocks d' = {[ "t1" ]} ∪ (knownBlocks d ∖ {[y]}) ∧
     ("t1" ∈ knownBlocks d → y ≠ "t1" → len (knownBlocks d') = 1023%Z)) ∧
  (∃ y d', y ∈ knownTxs d ∧ (hd "" ["t0"] ∈ knownTxs d → y = hd "" ["t0"]) ∧
     neighbors (_mark_transaction ["t0"] "t1" "b" node_full).2 !! "b" = Some d' ∧
     knownTxs d' = {[ "t1" ]} ∪ (knownTxs d ∖ {[y]}) ∧
     ("t1" ∈ knownTxs d → y ≠ "t1" → len (knownTxs d') = 29999%Z)).
Proof.
  exact (conj
           (proj1 (mark_full_set ["t0"] "t1" "b" node_full neighbor_full
                     (lookup_singleton_eq "b" neighbor_full))
                  (len_tx_hashes 1024 ltac:(lia)))
           (proj2 (mark_full_set ["t0"] "t1" "b" node_full neighbor_full
                     (lookup_singleton_eq "b" neighbor_full))
                  (len_tx_hashes 30000 ltac:(lia)))).
Defined.

Lemma set_knownBlocks_id d : set_knownBlocks d (knownBlocks d) = d.
Proof. by destruct d. Qed.

Lemma set_neighbors_id self : set_neighbors self (neighbors self) = self.
Proof. by destruct self. Qed.

(** X6.  Marking again a hash that is already known, in a set below its
    bound, for a neighbour stored under its own address, changes nothing at
    all: the node after the call is the node before it.  For [_mark_block]
    this asks nothing of the known transactions, and for
    [_mark_transaction] nothing of the known blocks. *)
Theorem mark_known_again picks h a self d :
  neighbors self !! a = Some d → nb_address d = a →
  (h ∈ knownBlocks d → (len (knownBlocks d) < 1024)%Z →
   _mark_block picks h a self = (Ok tt, self)) ∧
  (h ∈ knownTxs d → (len (knownTxs d) < 30000)%Z →
   _mark_transaction picks h a self = (Ok tt, self)).
Proof.
  intros Hd Ha.
  rewrite (mark_block_Some _ _ _ _ _ Hd Ha), (mark_transaction_Some _ _ _ _ _ Hd Ha).
  split; intros Hh Hlt; rewrite mark_one_below by done; rewrite set_add_old by done.
  - rewrite set_knownBlocks_id. rewrite insert_id by done. by rewrite set_neighbors_id.
  - rewrite set_knownTxs_id. rewrite insert_id by done. by rewrite set_neighbors_id.
Qed.

Lemma mark_known_again_witness :
  _mark_block [] "" "b" node_a = (Ok tt, node_a) ∧
  _mark_transaction [] "" "b" node_a = (Ok tt, node_a).
Proof.
  destruct (mark_known_again [] "" "b" node_a
              (mkNeighbor (Some (mkConnection 0 "a" "b")) GenesisBlock "Tokyo" "b"
                          {[ "" ]} {[ "" ]})) as [Hblocks Htxs].
  - vm_compute. reflexivity.
  - reflexivity.
  - split; [apply Hblocks|apply Htxs]; vm_compute; reflexivity.
Defined.

(** ** [add_neighbors], further *)

Lemma add_neighbor_fields self sim node :
  address (add_neighbor (self, sim) node).1 = address self ∧
  location (add_neighbor (self, sim) node).1 = location self ∧
  chain (add_neighbor (self, sim) node).1 = chain self ∧
  transmission_speed (add_neighbor (self, sim) node).1 = transmission_speed self ∧
  now (add_neighbor (self, sim) node).2 = now sim ∧
  stores (add_neighbor (self, sim) node).2 = stores sim ++ [[]].
Proof. done. Qed.

Lemma add_neighbors_fields nodes self sim :
  address (add_neighbors self nodes sim).1 = address self ∧
  location (add_neighbors self nodes sim).1 = location self ∧
  chain (add_neighbors self nodes sim).1 = chain self ∧
  transmission_speed (add_neighbors self nodes sim).1 = transmission_speed self ∧
  now (add_neighbors self nodes sim).2 = now sim ∧
  stores (add_neighbors self nodes sim).2 = stores sim ++ replicate (length nodes) [].
Proof.
  revert self sim. induction nodes as [|node nodes IH]; intros self sim.
  - simpl. by rewrite app_nil_r.
  - rewrite add_neighbors_cons.
    destruct (add_neighbor_fields self sim node) as (Ha & Hl & Hc & Ht & Hn & Hs).
    destruct (IH (add_neighbor (self, sim) node).1 (add_neighbor (self, sim) node).2)
      as (Ha' & Hl' & Hc' & Ht' & Hn' & Hs').
    rewrite Ha', Hl', Hc', Ht', Hn', Hs', Ha, Hl, Hc, Ht, Hn, Hs.
    repeat (split; [done|]). by rewrite <- app_assoc.
Qed.

Lemma add_neighbors_dom nodes self sim :
  dom (neighbors (add_neighbors self nodes sim).1) =
  dom (neighbors self) ∪ list_to_set (address <$> nodes).
Proof.
  revert self sim. induction nodes as [|node nodes IH]; intros self sim.
  - simpl. set_solver.
  - rewrite add_neighbors_cons, IH.
    unfold add_neighbor, Connection_init. simpl. rewrite dom_insert_L. set_solver.
Qed.

(** X7.  After [add_neighbors] the node has an entry exactly for the
    addresses it had one for and the addresses of the nodes passed; the
    entries of all other addresses are untouched, and so are the node's own
    address, location, chain and transmission speed. *)
Theorem add_neighbors_entries self nodes sim :
  dom (neighbors (add_neighbors self nodes sim).1) =
    dom (neighbors self) ∪ list_to_set (address <$> nodes) ∧
  (∀ k, k ∉ address <$> nodes →
     neighbors (add_neighbors self nodes sim).1 !! k = neighbors self !! k) ∧
  address (add_neighbors self nodes sim).1 = address self ∧
  location (add_neighbors self nodes sim).1 = location self ∧
  chain (add_neighbors self nodes sim).1 = chain self ∧
  transmission_speed (add_neighbors self nodes sim).1 = transmission_speed self.
Proof.
  split; [apply add_neighbors_dom|]. split; [intros k Hk; by apply add_neighbors_other|].
  destruct (add_neighbors_fields nodes self sim) as (Ha & Hl & Hc & Ht & _). done.
Qed.

(** The entry installed for a node passed to [add_neighbors], the last one
    passed with that address. *)
Lemma add_neighbors_installed self pre node post sim :
  address node ∉ address <$> post →
  neighbors (add_neighbors self (pre ++ node :: post) sim).1 !! address node =
  Some (mkNeighbor
          (Some (mkConnection (length (stores sim) + length pre) (address self) (address node)))
          (head (chain node)) (location node) (address node) {[ "" ]} {[ "" ]}).
Proof.
  intros Hpost. rewrite add_neighbors_app, add_neighbors_cons.
  rewrite add_neighbors_other by done.
  destruct (add_neighbors_fields pre self sim) as (Ha & _ & _ & _ & _ & Hs).
  destruct (add_neighbors self pre sim) as [self' sim']. simpl in Ha, Hs.
  unfold add_neighbor, Connection_init. simpl. rewrite lookup_insert_eq.
  rewrite Ha, Hs, length_app, length_replicate. done.
Qed.

Lemma add_neighbors_queue self pre node post sim :
  stores (add_neighbors self (pre ++ node :: post) sim).2
    !! (length (stores sim) + length pre)%nat = Some [].
Proof.
  destruct (add_neighbors_fields (pre ++ node :: post) self sim) as (_ & _ & _ & _ & _ & ->).
  rewrite lookup_app_r by lia.
  apply lookup_replicate. split; [done|]. rewrite length_app. simpl. lia.
Qed.

(** X8.  [add_neighbors] creates one connection per node passed, each with
    an empty queue of its own, after the queues there were, which it leaves
    alone, as it does the clock.  The connection installed for a node (the
    last passed with that address) goes from this node to that node and
    owns the queue created at that node's turn. *)
Theorem add_neighbors_connections self pre node post sim :
  address node ∉ address <$> post →
  stores (add_neighbors self (pre ++ node :: post) sim).2 =
    stores sim ++ replicate (length (pre ++ node :: post)) [] ∧
  now (add_neighbors self (pre ++ node :: post) sim).2 = now sim ∧
  nb_connection <$> neighbors (add_neighbors self (pre ++ node :: post) sim).1 !! address node =
    Some (Some (mkConnection (length (stores sim) + length pre) (address self) (address node))) ∧
  stores (add_neighbors self (pre ++ node :: post) sim).2
    !! (length (stores sim) + length pre)%nat = Some [].
Proof.
  intros Hpost.
  destruct (add_neighbors_fields (pre ++ node :: post) self sim) as (_ & _ & _ & _ & Hn & Hs).
  split; [done|]. split; [done|]. split.
  - by rewrite (add_neighbors_installed _ _ _ _ _ Hpost).
  - apply add_neighbors_queue.
Qed.

Lemma add_neighbors_connections_witness :
  stores (add_neighbors node_b0 ([] ++ node_a :: []) sim1).2 =
    stores sim1 ++ replicate (length ([] ++ node_a :: [])) [] ∧
  now (add_neighbors node_b0 ([] ++ node_a :: []) sim1).2 = now sim1 ∧
  nb_connection <$> neighbors (add_neighbors node_b0 ([] ++ node_a :: []) sim1).1
    !! address node_a =
    Some (Some (mkConnection (length (stores sim1) + length (@nil Node))
                             (address node_b0) (address node_a))) ∧
  stores (add_neighbors node_b0 ([] ++ node_a :: []) sim1).2
    !! (length (stores sim1) + length (@nil Node))%nat = Some [].
Proof.
  apply (add_neighbors_connections node_b0 [] node_a [] sim1).
  vm_compute. intros H. inversion H.
Defined.

(** ** [send], further *)

(** X9.  To a registered neighbour with a connection, and with an upload
    rate that is not negative, [send] runs to its end in three resumptions:
    the envelope, stamped with the starting time plus 3 plus the upload
    rate and with the two ends of the connection, is added at the tail of
    the queue of that connection; the envelopes already there stay in front
    of it, every other queue is as it was, and the clock stands at the time
    of the stamp. *)
Theorem send_appends dest upload_rate msg self sim d connection queue :
  neighbors self !! dest = Some d → nb_connection d = Some connection →
  stores sim !! conn_id connection = Some queue →
  (0 ≤ upload_rate)%Z →
  ∃ sim',
    run_alone (send dest upload_rate msg) 2 SendStart (self, sim) = (Return, (self, sim')) ∧
    now sim' = (now sim + 3 + upload_rate)%Z ∧
    stores sim' !! conn_id connection =
      Some (queue ++ [mkEnvelope msg (now sim + 3 + upload_rate)
                                 (destination_node connection) (origin_node connection)]) ∧
    ∀ i, i ≠ conn_id connection → stores sim' !! i = stores sim !! i.
Proof.
  intros Hd Hc Hq Hrate. eexists. split; [by apply (send_completes _ _ _ _ _ d)|].
  unfold Connection_put, sleep. simpl. split; [done|]. split.
  - rewrite list_lookup_alter_eq, Hq. done.
  - intros i Hi. by rewrite list_lookup_alter_ne.
Qed.

Lemma send_appends_witness :
  ∃ sim',
    run_alone (send "b" 5 "tx1") 2 SendStart (node_a, sim2) = (Return, (node_a, sim')) ∧
    now sim' = (now sim2 + 3 + 5)%Z ∧
    stores sim' !! conn_id (mkConnection 0 "a" "b") =
      Some ([] ++ [mkEnvelope "tx1" (now sim2 + 3 + 5)
                              (destination_node (mkConnection 0 "a" "b"))
                              (origin_node (mkConnection 0 "a" "b"))]) ∧
    ∀ i, i ≠ conn_id (mkConnection 0 "a" "b") → stores sim' !! i = stores sim2 !! i.
Proof.
  apply (send_appends "b" 5 "tx1" node_a sim2
           (mkNeighbor (Some (mkConnection 0 "a" "b")) GenesisBlock "Tokyo" "b"
                       {[ "" ]} {[ "" ]})
           (mkConnection 0 "a" "b") []).
  - vm_compute. reflexivity.
  - reflexivity.
  - vm_compute. reflexivity.
  - lia.
Defined.

(** X10.  Wiring, then sending: after [add_neighbors], a [send] to the
    address of a node that was passed (with an upload rate that is not
    negative) does not raise; it ends with exactly one envelope on the
    queue created for that node, from this node to that node, stamped 3
    plus the upload rate after the start. *)
Theorem add_neighbors_then_send self pre node post sim upload_rate msg :
  address node ∉ address <$> post → (0 ≤ upload_rate)%Z →
  ∃ sim',
    run_alone (send (address node) upload_rate msg) 2 SendStart
              (add_neighbors self (pre ++ node :: post) sim) =
      (Return, ((add_neighbors self (pre ++ node :: post) sim).1, sim')) ∧
    now sim' = (now sim + 3 + upload_rate)%Z ∧
    stores sim' !! (length (stores sim) + length pre)%nat =
      Some [mkEnvelope msg (now sim + 3 + upload_rate) (address node) (address self)].
Proof.
  intros Hpost Hrate.
  pose proof (add_neighbors_installed self pre node post sim Hpost) as Hd.
  pose proof (add_neighbors_queue self pre node post sim) as Hq.
  destruct (add_neighbors_fields (pre ++ node :: post) self sim) as (_ & _ & _ & _ & Hnow & _).
  destruct (add_neighbors self (pre ++ node :: post) sim) as [self' sim'] eqn:E.
  cbn [fst snd] in *.
  eexists. split; [by eapply send_completes|].
  unfold Connection_put, sleep. simpl. rewrite Hnow. split; [done|].
  rewrite list_lookup_alter_eq, Hq. done.
Qed.

Lemma add_neighbors_then_send_witness :
  ∃ sim',
    run_alone (send (address node_b0) 5 "tx1") 2 SendStart
              (add_neighbors node_a0 ([] ++ node_b0 :: []) sim0) =
      (Return, ((add_neighbors node_a0 ([] ++ node_b0 :: []) sim0).1, sim')) ∧
    now sim' = (now sim0 + 3 + 5)%Z ∧
    stores sim' !! (length (stores sim0) + length (@nil Node))%nat =
      Some [mkEnvelope "tx1" (now sim0 + 3 + 5) (address node_b0) (address node_a0)].
Proof.
  apply (add_neighbors_then_send node_a0 [] node_b0 [] sim0 5 "tx1").
  - vm_compute. intros H. inversion H.
  - lia.
Defined.

(** X11.  When the entry of the destination holds no connection, [send]
    raises a [RuntimeError] about the missing direct connection the first
    time it is resumed, before any timeout: the clock and the queues are as
    they were. *)
Theorem send_without_connection dest upload_rate msg self sim d resumes :
  neighbors self !! dest = Some d → nb_connection d = None →
  run_alone (send dest upload_rate msg) resumes SendStart (self, sim) =
  (Raised (RuntimeError "There is not a direct connection with the neighbor ({})"
                        [FObj (PyDict d)]),
   (self, sim)).
Proof.
  intros Hd Hc.
  assert (send dest upload_rate msg SendStart (self, sim) =
          (Raised (RuntimeError "There is not a direct connection with the neighbor ({})"
                                [FObj (PyDict d)]), (self, sim))) as Hstart.
  { unfold send. by rewrite (get_neighbor_Some _ _ _ Hd), Hc. }
  destruct resumes; cbn [run_alone]; by rewrite Hstart.
Qed.

Lemma send_without_connection_witness :
  run_alone (send "b" 5 "tx1") 2 SendStart (node_full, sim0) =
  (Raised (RuntimeError "There is not a direct connection with the neighbor ({})"
                        [FObj (PyDict neighbor_full)]),
   (node_full, sim0)).
Proof.
  exact (send_without_connection "b" 5 "tx1" node_full sim0 neighbor_full 2
           (lookup_singleton_eq "b" neighbor_full) eq_refl).
Defined.

(** ** [listening], further *)

(** X12.  [listening] never gets to wait for an envelope: whatever the
    node, the first resumption leaves the state as it is and either ends
    the generator, when the node has no neighbour, or raises [TypeError],
    when it has one. *)
Theorem listening_never_yields download_rate self sim :
  (neighbors self = ∅ ∧
   listening download_rate ListenStart (self, sim) = (Return, (self, sim))) ∨
  (neighbors self ≠ ∅ ∧
   listening download_rate ListenStart (self, sim) =
   (Raised (TypeError "tuple indices must be integers or slices, not str"), (self, sim))).
Proof.
  destruct (decide (neighbors self = ∅)) as [He|Hne].
  - left. split; [done|]. by apply listening_no_neighbors.
  - right. split; [done|].
    unfold listening. destruct (items_nonempty _ Hne) as (key & value & rest & ->). done.
Qed.

(** ** [_update_neighbors] and [_get_neighbor] *)

(** X13.  A dictionary stored with [_update_neighbors] is what
    [_get_neighbor] returns for its ['address']; for every other address
    [_get_neighbor] gives what it gave before, and the address of the node
    is as it was. *)
Theorem update_then_get self new_neighbor :
  _get_neighbor (_update_neighbors self new_neighbor) (nb_address new_neighbor) =
    Ok new_neighbor ∧
  (∀ a, a ≠ nb_address new_neighbor →
     _get_neighbor (_update_neighbors self new_neighbor) a = _get_neighbor self a) ∧
  address (_update_neighbors self new_neighbor) = address self.
Proof.
  unfold _get_neighbor, _update_neighbors. simpl. split; [by rewrite lookup_insert_eq|].
  split; [|done]. intros a Ha. by rewrite lookup_insert_ne.
Qed.

(** ** [NodeFactory], further *)

(** X14.  [_check_location] returns normally exactly when every requested
    location, of the miners and of the non-miners, is among the locations
    of the world. *)
Theorem check_location_passes_iff world miners non_miners :
  _check_location world miners non_miners = Ok tt ↔
  ∀ location, location ∈ (miners.*1) ++ (non_miners.*1) → location ∈ locations world.
Proof.
  unfold _check_location. generalize ((miners.*1) ++ (non_miners.*1)).
  intros nodes_location. induction nodes_location as [|location rest IH]; simpl.
  - split; [|done]. intros _ l Hl. by apply elem_of_nil in Hl.
  - case_decide as Hknown.
    + rewrite IH. split.
      * intros Hall l Hl. apply elem_of_cons in Hl as [->|Hl]; [done|by apply Hall].
      * intros Hall l Hl. apply Hall. by right.
    + split; [discriminate|]. intros Hall. destruct Hknown. apply Hall. left.
Qed.

(** X15.  The location [_check_location] reports is the first unknown one
    in the order of the request: the keys of [miners], then those of
    [non_miners]. *)
Theorem check_location_reports_first world miners non_miners pre location post :
  (miners.*1) ++ (non_miners.*1) = pre ++ location :: post →
  (∀ l, l ∈ pre → l ∈ locations world) →
  location ∉ locations world →
  _check_location world miners non_miners =
  Raise (RuntimeError
           "There are not measurements for the location {}. Only available locations: {}"
           [FStr location; FStrs (locations world)]).
Proof.
  unfold _check_location. intros -> Hpre Hbad.
  induction pre as [|l pre IH]; simpl.
  - by rewrite decide_False.
  - rewrite decide_True by (apply Hpre; left).
    apply IH. intros l' Hl'. apply Hpre. by right.
Qed.

Lemma check_location_reports_first_witness :
  _check_location (mkWorld "bitcoin" ["Ohio"; "Tokyo"])
                  [("Ohio", 1%Z); ("Mars", 1%Z)] [("Venus", 1%Z)] =
  Raise (RuntimeError
           "There are not measurements for the location {}. Only available locations: {}"
           [FStr "Mars"; FStrs (locations (mkWorld "bitcoin" ["Ohio"; "Tokyo"]))]).
Proof.
  apply (check_location_reports_first (mkWorld "bitcoin" ["Ohio"; "Tokyo"])
           [("Ohio", 1%Z); ("Mars", 1%Z)] [("Venus", 1%Z)] ["Ohio"] "Mars" ["Venus"]).
  - reflexivity.
  - intros l Hl. apply list_elem_of_singleton in Hl as ->. simpl. left.
  - simpl. intros H. repeat (apply elem_of_cons in H as [H|H]; [discriminate|]).
    by apply elem_of_nil in H.
Defined.

(** X16.  With every requested location known, [create_nodes] hands the
    request to [create_bitcoin_nodes] when the blockchain of the world is
    ['bitcoin'] and to [create_ethereum_nodes] when it is ['ethereum'], and
    returns the list of nodes, or raises the exception, that comes out. *)
Theorem create_nodes_dispatch {NodeT Net : Type}
    (BTCNode ETHNode : string → string → bool → Net → result NodeT * Net)
    (connect : NodeT → list NodeT → Net → result unit * Net)
    (lower : string → string)
    (known : list string) miners non_miners net :
  (∀ location, location ∈ (miners.*1) ++ (non_miners.*1) → location ∈ known) →
  create_nodes BTCNode ETHNode connect lower (mkWorld "bitcoin" known) miners non_miners net =
    (match create_bitcoin_nodes BTCNode connect lower miners non_miners net with
     | (Ok nodes_list, net') => (Ok (NodesList nodes_list), net')
     | (Raise e, net') => (Raise e, net')
     end) ∧
  create_nodes BTCNode ETHNode connect lower (mkWorld "ethereum" known) miners non_miners net =
    (match create_ethereum_nodes ETHNode connect lower miners non_miners net with
     | (Ok nodes_list, net') => (Ok (NodesList nodes_list), net')
     | (Raise e, net') => (Raise e, net')
     end).
Proof.
  intros Hall. split.
  - unfold create_nodes, _check_location.
    rewrite (check_each_Ok (mkWorld "bitcoin" known) _ Hall).
    unfold bind at 1. unfold ret at 1. cbn [dict_get blockchain].
    rewrite decide_True by done. cbn [call2]. unfold bind, ret.
    by destruct (create_bitcoin_nodes BTCNode connect lower miners non_miners net) as [[l|e] net'].
  - unfold create_nodes, _check_location.
    rewrite (check_each_Ok (mkWorld "ethereum" known) _ Hall).
    unfold bind at 1. unfold ret at 1. cbn [dict_get blockchain].
    rewrite decide_False by done. rewrite decide_True by done.
    cbn [call2]. unfold bind, ret.
    by destruct (create_ethereum_nodes ETHNode connect lower miners non_miners net) as [[l|e] net'].
Qed.

Lemma create_nodes_dispatch_witness :
  create_nodes example_node example_node example_connect ascii_lower
               (mkWorld "bitcoin" ["Ohio"; "Tokyo"]) [("Ohio", 2%Z)] [("Tokyo", 1%Z)] [] =
    (match create_bitcoin_nodes example_node example_connect ascii_lower
                                [("Ohio", 2%Z)] [("Tokyo", 1%Z)] [] with
     | (Ok nodes_list, net') => (Ok (NodesList nodes_list), net')
     | (Raise e, net') => (Raise e, net')
     end) ∧
  create_nodes example_node example_node example_connect ascii_lower
               (mkWorld "ethereum" ["Ohio"; "Tokyo"]) [("Ohio", 2%Z)] [("Tokyo", 1%Z)] [] =
    (match create_ethereum_nodes example_node example_connect ascii_lower
                                 [("Ohio", 2%Z)] [("Tokyo", 1%Z)] [] with
     | (Ok nodes_list, net') => (Ok (NodesList nodes_list), net')
     | (Raise e, net') => (Raise e, net')
     end).
Proof.
  apply (create_nodes_dispatch example_node example_node example_connect ascii_lower
           ["Ohio"; "Tokyo"] [("Ohio", 2%Z)] [("Tokyo", 1%Z)] []).
  simpl. intros location H.
  apply elem_of_cons in H as [->|H]; [left|].
  apply elem_of_cons in H as [->|H]; [right; left|].
  by apply elem_of_nil in H.
Defined.

Lemma length_expand population :
  length (expand population) = sum_list ((λ p, Z.to_nat p.2) <$> population).
Proof.
  unfold expand. induction population as [|[loc n] population IH]; [done|].
  simpl. rewrite length_app, length_replicate, IH. done.
Qed.

Lemma expand_app p1 p2 : expand (p1 ++ p2) = expand p1 ++ expand p2.
Proof. unfold expand. apply flat_map_app. Qed.

Section Population.
Context {NodeT Net : Type}.
Variable ctor : string → string → bool → Net → result NodeT * Net.
Variable connect : NodeT → list NodeT → Net → result unit * Net.
Variable lower : string → string.
Hypothesis ctor_returns : ∀ loc addr m net, ∃ node net', ctor loc addr m net = (Ok node, net').
Hypothesis connect_returns : ∀ node l net, ∃ net', connect node l net = (Ok tt, net').

Lemma create_range_returns m loc n : ∀ node_id nodes net,
  ∃ nodes' net',
    create_range lower ctor m loc n node_id nodes net = (Ok ((node_id + Z.of_nat n)%Z, nodes'), net') ∧
    length nodes' = (length nodes + n)%nat.
Proof.
  induction n as [|n IH]; intros node_id nodes net.
  - exists nodes, net. simpl. unfold ret. rewrite Z.add_0_r. split; [done|lia].
  - cbn [create_range]. unfold bind.
    destruct (ctor_returns loc (lower loc +:+ "-" +:+ pretty (node_id + 1)%Z) m net)
      as (node & net1 & ->).
    destruct (IH (node_id + 1)%Z (nodes ++ [node]) net1) as (nodes' & net' & -> & Hlen).
    exists nodes', net'. split; [do 3 f_equal; lia|].
    rewrite Hlen, length_app. simpl. lia.
Qed.

Lemma create_each_returns m population : ∀ node_id nodes net,
  ∃ nodes' net',
    create_each lower ctor m population node_id nodes net =
      (Ok ((node_id + Z.of_nat (length (expand population)))%Z, nodes'), net') ∧
    length nodes' = (length nodes + length (expand population))%nat.
Proof.
  induction population as [|[loc n] population IH]; intros node_id nodes net.
  - exists nodes, net. simpl. unfold ret. rewrite Z.add_0_r. split; [done|lia].
  - cbn [create_each]. unfold bind.
    destruct (create_range_returns m loc (Z.to_nat n) node_id nodes net)
      as (nodes1 & net1 & -> & Hlen1).
    cbn [fst snd].
    destruct (IH (node_id + Z.of_nat (Z.to_nat n))%Z nodes1 net1)
      as (nodes' & net' & -> & Hlen).
    exists nodes', net'.
    change (expand ((loc, n) :: population))
      with (replicate (Z.to_nat n) loc ++ expand population).
    rewrite length_app, length_replicate. split; [do 3 f_equal; lia|lia].
Qed.

Lemma connect_each_returns nodes_list : ∀ nodes net,
  ∃ net', connect_each connect nodes nodes_list net = (Ok tt, net').
Proof.
  induction nodes as [|node nodes IH]; intros net.
  - by exists net.
  - cbn [connect_each]. unfold bind.
    destruct (connect_returns node nodes_list net) as (net1 & ->). apply IH.
Qed.

Lemma create_population_returns miners non_miners net :
  ∃ nodes_list net',
    create_population connect lower ctor miners non_miners net = (Ok nodes_list, net') ∧
    length nodes_list =
      (sum_list ((λ p, Z.to_nat p.2) <$> miners) +
       sum_list ((λ p, Z.to_nat p.2) <$> non_miners))%nat.
Proof.
  unfold create_population, bind.
  destruct (create_each_returns true miners 0%Z [] net) as (l1 & net1 & -> & Hl1).
  cbn [fst snd].
  destruct (create_each_returns false non_miners
              (0 + Z.of_nat (length (expand miners)))%Z [] net1) as (l2 & net2 & -> & Hl2).
  cbn [fst snd].
  destruct (connect_each_returns (l1 ++ l2) (l1 ++ l2) net2) as (net3 & ->).
  exists (l1 ++ l2), net3. split; [done|].
  rewrite length_app, Hl1, Hl2, !length_expand. simpl. lia.
Qed.
End Population.

(** X17.  With node constructors and a [connect] that do not raise,
    [create_bitcoin_nodes] and [create_ethereum_nodes] return a list with
    one node per unit of ['how_many'] of the miners and of the non-miners,
    a ['how_many'] that is not positive counting for none. *)
Theorem create_nodes_count {NodeT Net : Type}
    (BTCNode ETHNode : string → string → bool → Net → result NodeT * Net)
    (connect : NodeT → list NodeT → Net → result unit * Net)
    (lower : string → string) miners non_miners net :
  (∀ loc addr m net, ∃ node net', BTCNode loc addr m net = (Ok node, net')) →
  (∀ loc addr m net, ∃ node net', ETHNode loc addr m net = (Ok node, net')) →
  (∀ node l net, ∃ net', connect node l net = (Ok tt, net')) →
  (∃ nodes_list net',
     create_bitcoin_nodes BTCNode connect lower miners non_miners net = (Ok nodes_list, net') ∧
     length nodes_list =
       (sum_list ((λ p, Z.to_nat p.2) <$> miners) +
        sum_list ((λ p, Z.to_nat p.2) <$> non_miners))%nat) ∧
  (∃ nodes_list net',
     create_ethereum_nodes ETHNode connect lower miners non_miners net = (Ok nodes_list, net') ∧
     length nodes_list =
       (sum_list ((λ p, Z.to_nat p.2) <$> miners) +
        sum_list ((λ p, Z.to_nat p.2) <$> non_miners))%nat).
Proof.
  intros HB HE Hc. split; by apply create_population_returns.
Qed.

Lemma create_nodes_count_witness :
  (∃ nodes_list net',
     create_bitcoin_nodes example_node example_connect ascii_lower
                          [("Ohio", 2%Z); ("Lima", (-1)%Z)] [("Tokyo", 1%Z)] [] =
       (Ok nodes_list, net') ∧
     length nodes_list =
       (sum_list ((λ p, Z.to_nat p.2) <$> [("Ohio", 2%Z); ("Lima", (-1)%Z)]) +
        sum_list ((λ p, Z.to_nat p.2) <$> [("Tokyo", 1%Z)]))%nat) ∧
  (∃ nodes_list net',
     create_ethereum_nodes example_node example_connect ascii_lower
                           [("Ohio", 2%Z); ("Lima", (-1)%Z)] [("Tokyo", 1%Z)] [] =
       (Ok nodes_list, net') ∧
     length nodes_list =
       (sum_list ((λ p, Z.to_nat p.2) <$> [("Ohio", 2%Z); ("Lima", (-1)%Z)]) +
        sum_list ((λ p, Z.to_nat p.2) <$> [("Tokyo", 1%Z)]))%nat).
Proof.
  apply (create_nodes_count example_node example_node example_connect ascii_lower
           [("Ohio", 2%Z); ("Lima", (-1)%Z)] [("Tokyo", 1%Z)] []).
  - intros loc addr m net. by eexists _, _.
  - intros loc addr m net. by eexists _, _.
  - intros node l net. by eexists.
Defined.

Lemma numbered_app lower m node_id l1 l2 :
  numbered lower m node_id (l1 ++ l2) =
  numbered lower m node_id l1 ++ numbered lower m (node_id + Z.of_nat (length l1))%Z l2.
Proof.
  revert node_id. induction l1 as [|loc l1 IH]; intros node_id; simpl.
  - by rewrite Z.add_0_r.
  - rewrite IH. do 3 f_equal. lia.
Qed.

Lemma length_numbered lower m node_id locs : length (numbered lower m node_id locs) = length locs.
Proof. revert node_id. induction locs as [|loc locs IH]; intros; simpl; [done|by rewrite IH]. Qed.

Lemma numbered_locs lower m node_id locs : (numbered lower m node_id locs).*1.*1 = locs.
Proof. revert node_id. induction locs as [|loc locs IH]; intros; simpl; [done|by rewrite IH]. Qed.

Lemma numbered_lookup lower m node_id locs i loc addr m' :
  numbered lower m node_id locs !! i = Some (loc, addr, m') →
  addr = lower loc +:+ "-" +:+ pretty (node_id + Z.of_nat i + 1)%Z ∧ m' = m.
Proof.
  revert node_id i. induction locs as [|l locs IH]; intros node_id [|i]; simpl; try done.
  - intros [= <- <- <-]. rewrite Z.add_0_r. done.
  - intros H. apply IH in H as [-> ->]. split; [|done]. do 3 f_equal. lia.
Qed.

Lemma create_range_record lower m loc n : ∀ node_id nodes net,
  create_range lower record_node m loc n node_id nodes net =
  (Ok ((node_id + Z.of_nat n)%Z, nodes ++ numbered lower m node_id (replicate n loc)),
   net ++ numbered lower m node_id (replicate n loc)).
Proof.
  induction n as [|n IH]; intros node_id nodes net.
  - simpl. unfold ret. by rewrite Z.add_0_r, !app_nil_r.
  - cbn [create_range replicate numbered]. unfold bind, record_node at 1.
    rewrite IH. rewrite <- !app_assoc. simpl. do 3 f_equal. lia.
Qed.

Lemma create_each_record lower m population : ∀ node_id nodes net,
  create_each lower record_node m population node_id nodes net =
  (Ok ((node_id + Z.of_nat (length (expand population)))%Z,
       nodes ++ numbered lower m node_id (expand population)),
   net ++ numbered lower m node_id (expand population)).
Proof.
  induction population as [|[loc n] population IH]; intros node_id nodes net.
  - simpl. unfold ret. by rewrite Z.add_0_r, !app_nil_r.
  - cbn [create_each]. unfold bind. rewrite create_range_record. cbn [fst snd].
    rewrite IH.
    change (expand ((loc, n) :: population))
      with (replicate (Z.to_nat n) loc ++ expand population).
    rewrite numbered_app, length_app, !length_replicate, <- !app_assoc.
    do 3 f_equal. lia.
Qed.

Lemma connect_each_record nodes_list nodes net :
  connect_each record_connect nodes nodes_list net = (Ok tt, net).
Proof. induction nodes as [|node nodes IH]; [done|]. cbn [connect_each]. by unfold bind. Qed.

Lemma create_population_record lower miners non_miners net :
  create_population record_connect lower record_node miners non_miners net =
  (Ok (numbered lower true 0 (expand miners) ++
       numbered lower false (Z.of_nat (length (expand miners))) (expand non_miners)),
   net ++ (numbered lower true 0 (expand miners) ++
           numbered lower false (Z.of_nat (length (expand miners))) (expand non_miners))).
Proof.
  unfold create_population, bind.
  rewrite create_each_record. cbn [fst snd].
  rewrite create_each_record. cbn [fst snd].
  rewrite connect_each_record. rewrite Z.add_0_l. simpl. by rewrite <- app_assoc.
Qed.

(** X18.  What the node constructor is called with, read off a node class
    that keeps its arguments: [create_bitcoin_nodes] and
    [create_ethereum_nodes] construct one node per requested unit, the
    miners' locations first and then the non-miners', each location as
    many times as its ['how_many']; the node constructed in place [i]
    (from 0) gets the address made of [str.lower()] of its location, a
    dash and the number [i + 1], and is a miner exactly when it comes from
    [miners]; the list returned is the list of the nodes constructed. *)
Theorem create_nodes_numbering (lower : string → string) miners non_miners net :
  ∃ nodes_list,
    create_bitcoin_nodes record_node record_connect lower miners non_miners net =
      (Ok nodes_list, net ++ nodes_list) ∧
    create_ethereum_nodes record_node record_connect lower miners non_miners net =
      (Ok nodes_list, net ++ nodes_list) ∧
    nodes_list.*1.*1 = expand miners ++ expand non_miners ∧
    ∀ i loc addr is_mining,
      nodes_list !! i = Some (loc, addr, is_mining) →
      addr = lower loc +:+ "-" +:+ pretty (Z.of_nat i + 1)%Z ∧
      is_mining = bool_decide (i < length (expand miners))%nat.
Proof.
  eexists. split; [apply create_population_record|].
  split; [apply create_population_record|]. split.
  - by rewrite !fmap_app, !numbered_locs.
  - intros i loc addr is_mining Hi.
    destruct (decide (i < length (expand miners))%nat) as [Hlt|Hge].
    + rewrite lookup_app_l in Hi by (by rewrite length_numbered).
      apply numbered_lookup in Hi as [-> ->]. rewrite bool_decide_eq_true_2 by done.
      split; [do 3 f_equal; lia|done].
    + rewrite lookup_app_r in Hi by (rewrite length_numbered; lia).
      rewrite length_numbered in Hi.
      apply numbered_lookup in Hi as [-> ->]. rewrite bool_decide_eq_false_2 by done.
      split; [do 3 f_equal; lia|done].
Qed.

(** X19.  When no ['how_many'] is positive, [create_bitcoin_nodes] and
    [create_ethereum_nodes] return the empty list and call neither a node
    constructor nor [connect]: the state is as it was, whatever they are. *)
Theorem create_nodes_none {NodeT Net : Type}
    (BTCNode ETHNode : string → string → bool → Net → result NodeT * Net)
    (connect : NodeT → list NodeT → Net → result unit * Net)
    (lower : string → string) miners non_miners net :
  (∀ p, p ∈ miners ++ non_miners → (p.2 ≤ 0)%Z) →
  create_bitcoin_nodes BTCNode connect lower miners non_miners net = (Ok [], net) ∧
  create_ethereum_nodes ETHNode connect lower miners non_miners net = (Ok [], net).
Proof.
  intros Hall.
  assert (∀ ctor m population node_id net,
            (∀ p, p ∈ population → (p.2 ≤ 0)%Z) →
            @create_each NodeT Net lower ctor m population node_id [] net = (Ok (node_id, []), net))
    as Heach.
  { intros ctor m population. induction population as [|[loc n] population IH];
      intros node_id net' Hp; [done|].
    cbn [create_each]. unfold bind.
    assert (Z.to_nat n = 0%nat) as -> by (specialize (Hp (loc, n) ltac:(left)); simpl in Hp; lia).
    simpl. apply IH. intros p Hin. apply Hp. by right. }
  unfold create_bitcoin_nodes, create_ethereum_nodes, create_population, bind.
  rewrite !Heach; try (intros p Hp; apply Hall; set_solver). done.
Qed.

Lemma create_nodes_none_witness :
  create_bitcoin_nodes example_node example_connect ascii_lower [("Ohio", 0%Z)] [("Tokyo", (-3)%Z)] [] =
    (Ok [], []) ∧
  create_ethereum_nodes example_node example_connect ascii_lower [("Ohio", 0%Z)] [("Tokyo", (-3)%Z)] [] =
    (Ok [], []).
Proof.
  apply (create_nodes_none example_node example_node example_connect ascii_lower
           [("Ohio", 0%Z)] [("Tokyo", (-3)%Z)] []).
  intros p Hp.
  apply elem_of_cons in Hp as [->|Hp]; [simpl; lia|].
  apply elem_of_cons in Hp as [->|Hp]; [simpl; lia|].
  by apply elem_of_nil in Hp.
Defined.

(** ** [ETHTransaction] *)

(** X20.  Between two transactions the four comparisons agree with each
    other: [a < b] is [b > a], [a <= b] is [b >= a], and [<] is the
    negation of [>=] as [>] is of [<=].  Against an object that is not a
    transaction all four are false, so there [<] is not the negation of
    [>=]. *)
Theorem comparisons_agree (a b : ETHTransaction) :
  __lt__ a (Instance_ b) = __gt__ b (Instance_ a) ∧
  __le__ a (Instance_ b) = __ge__ b (Instance_ a) ∧
  __lt__ a (Instance_ b) = negb (__ge__ a (Instance_ b)) ∧
  __gt__ a (Instance_ b) = negb (__le__ a (Instance_ b)) ∧
  __lt__ a OtherObject = false ∧ __le__ a OtherObject = false ∧
  __gt__ a OtherObject = false ∧ __ge__ a OtherObject = false.
Proof.
  unfold __lt__, __le__, __gt__, __ge__.
  repeat split; try done.
  - rewrite Z.gtb_ltb. done.
  - rewrite Z.geb_leb. done.
  - rewrite Z.geb_leb. apply Z.ltb_antisym.
  - rewrite Z.gtb_ltb. apply Z.ltb_antisym.
Qed.

(** X21.  [<=] orders transactions by gas price: it is reflexive,
    transitive and total on transactions, and [<] is irreflexive and
    transitive.  It does not tell transactions apart: [a <= b] and
    [b <= a] hold together exactly when the gas prices are equal, whatever
    the other fields. *)
Theorem le_orders_by_gasprice (a b c : ETHTransaction) :
  __le__ a (Instance_ a) = true ∧
  (__le__ a (Instance_ b) = true → __le__ b (Instance_ c) = true →
   __le__ a (Instance_ c) = true) ∧
  (__le__ a (Instance_ b) = true ∨ __le__ b (Instance_ a) = true) ∧
  __lt__ a (Instance_ a) = false ∧
  (__lt__ a (Instance_ b) = true → __lt__ b (Instance_ c) = true →
   __lt__ a (Instance_ c) = true) ∧
  (__le__ a (Instance_ b) = true ∧ __le__ b (Instance_ a) = true ↔
   gasprice a = gasprice b).
Proof.
  unfold __lt__, __le__.
  rewrite !Z.leb_le, !Z.ltb_lt, Z.ltb_irrefl. repeat split; try lia.
Qed.

(** X22.  The fee of a transaction is its gas price times its start gas,
    the start gas being [TX_BASE_GAS_COST] when none is given; so among
    transactions built with the same positive start gas, [<] by gas price
    is [<] by fee. *)
Theorem lt_is_by_fee (TX_BASE_GAS_COST : Z) (to1 sender1 signature1 to2 sender2 signature2 : string)
    (value1 nonce1 gasprice1 value2 nonce2 gasprice2 : Z) (startgas : option Z) :
  (0 < default TX_BASE_GAS_COST startgas)%Z →
  let a := ETHTransaction_init TX_BASE_GAS_COST to1 sender1 value1 signature1 nonce1
                               gasprice1 startgas in
  let b := ETHTransaction_init TX_BASE_GAS_COST to2 sender2 value2 signature2 nonce2
                               gasprice2 startgas in
  fee a = (gasprice1 * default TX_BASE_GAS_COST startgas)%Z ∧
  (__lt__ a (Instance_ b) = true ↔ (fee a < fee b)%Z) ∧
  (__le__ a (Instance_ b) = true ↔ (fee a ≤ fee b)%Z).
Proof.
  intros Hpos a b. unfold __lt__, __le__. simpl.
  rewrite Z.ltb_lt, Z.leb_le. split; [done|]. split; nia.
Qed.

Lemma lt_is_by_fee_witness :
  let a := ETHTransaction_init 21000 "x" "y" 1 "s" 0 5 None in
  let b := ETHTransaction_init 21000 "y" "x" 2 "s" 0 7 None in
  fee a = (5 * default 21000 None)%Z ∧
  (__lt__ a (Instance_ b) = true ↔ (fee a < fee b)%Z) ∧
  (__le__ a (Instance_ b) = true ↔ (fee a ≤ fee b)%Z).
Proof.
  apply (lt_is_by_fee 21000 "x" "y" "s" "y" "x" "s" 1 0 5 2 0 7 None).
  simpl. lia.
Defined.

(** ** Nodes built through their methods, further *)

Lemma wired_add_neighbor self sim node :
  (∀ k d, neighbors self !! k = Some d →
     nb_address d = k ∧
     ∃ c, nb_connection d = Some c ∧ origin_node c = address self ∧
          destination_node c = k ∧ (conn_id c < length (stores sim))%nat) →
  ∀ k d, neighbors (add_neighbor (self, sim) node).1 !! k = Some d →
     nb_address d = k ∧
     ∃ c, nb_connection d = Some c ∧
          origin_node c = address (add_neighbor (self, sim) node).1 ∧
          destination_node c = k ∧
          (conn_id c < length (stores (add_neighbor (self, sim) node).2))%nat.
Proof.
  intros Hw k d. unfold add_neighbor, Connection_init. simpl.
  rewrite lookup_insert, length_app. case_decide as Hk.
  - intros [= <-]. simpl. split; [done|]. eexists. split; [done|]. simpl.
    repeat split; [done|lia].
  - intros Hd. destruct (Hw k d Hd) as (Ha & c & Hc & Ho & Hdest & Hid).
    split; [done|]. exists c. repeat split; try done. lia.
Qed.

Lemma wired_run_call c self sim :
  (∀ k d, neighbors self !! k = Some d →
     nb_address d = k ∧
     ∃ c, nb_connection d = Some c ∧ origin_node c = address self ∧
          destination_node c = k ∧ (conn_id c < length (stores sim))%nat) →
  ∀ k d, neighbors (run_call (self, sim) c).1 !! k = Some d →
     nb_address d = k ∧
     ∃ c', nb_connection d = Some c' ∧ origin_node c' = address (run_call (self, sim) c).1 ∧
           destination_node c' = k ∧
           (conn_id c' < length (stores (run_call (self, sim) c).2))%nat.
Proof.
  intros Hw. destruct c as [nodes|picks h a|picks h a]; cbn [run_call fst snd].
  - revert self sim Hw. induction nodes as [|node nodes IH]; intros self sim Hw; [done|].
    rewrite add_neighbors_cons.
    pose proof (wired_add_neighbor self sim node Hw) as Hw'.
    destruct (add_neighbor (self, sim) node) as [self' sim']. by apply IH.
  - destruct (neighbors self !! a) as [d0|] eqn:Hd0.
    + destruct (Hw a d0 Hd0) as (Ha & c0 & Hc0 & Ho & Hdest & Hid).
      rewrite (mark_block_Some _ _ _ _ _ Hd0 Ha). simpl. intros k d.
      rewrite lookup_insert. case_decide as Hk; [|apply Hw].
      intros [= <-]. subst k. simpl. split; [done|]. by exists c0.
    + unfold _mark_block. rewrite (get_neighbor_None _ _ Hd0). apply Hw.
  - destruct (neighbors self !! a) as [d0|] eqn:Hd0.
    + destruct (Hw a d0 Hd0) as (Ha & c0 & Hc0 & Ho & Hdest & Hid).
      rewrite (mark_transaction_Some _ _ _ _ _ Hd0 Ha). simpl. intros k d.
      rewrite lookup_insert. case_decide as Hk; [|apply Hw].
      intros [= <-]. subst k. simpl. split; [done|]. by exists c0.
    + unfold _mark_transaction. rewrite (get_neighbor_None _ _ Hd0). apply Hw.
Qed.

Lemma run_call_address c self sim : address (run_call (self, sim) c).1 = address self.
Proof.
  destruct c as [nodes|picks h a|picks h a]; cbn [run_call fst snd].
  - by destruct (add_neighbors_fields nodes self sim) as (-> & _).
  - unfold _mark_block. destruct (_get_neighbor self a); [|done].
    by destruct (pop_while MAX_KNOWN_BLOCKS picks (knownBlocks a0)) as [[[]|e] s].
  - unfold _mark_transaction. destruct (_get_neighbor self a); [|done].
    by destruct (pop_while MAX_KNOWN_TXS picks (knownTxs a0)) as [[[]|e] s].
Qed.

Lemma wired_run_calls calls self sim :
  (∀ k d, neighbors self !! k = Some d →
     nb_address d = k ∧
     ∃ c, nb_connection d = Some c ∧ origin_node c = address self ∧
          destination_node c = k ∧ (conn_id c < length (stores sim))%nat) →
  address (run_calls calls (self, sim)).1 = address self ∧
  ∀ k d, neighbors (run_calls calls (self, sim)).1 !! k = Some d →
     nb_address d = k ∧
     ∃ c, nb_connection d = Some c ∧ origin_node c = address self ∧
          destination_node c = k ∧
          (conn_id c < length (stores (run_calls calls (self, sim)).2))%nat.
Proof.
  unfold run_calls. revert self sim.
  induction calls as [|c calls IH]; intros self sim Hw; [done|].
  cbn [fold_left].
  pose proof (wired_run_call c self sim Hw) as Hw'.
  pose proof (run_call_address c self sim) as Ha.
  destruct (run_call (self, sim) c) as [self' sim']. cbn [fst snd] in *.
  rewrite <- Ha. apply IH. done.
Qed.

(** X23.  In a node built by its constructor and any sequence of
    [add_neighbors], [_mark_block] and [_mark_transaction] calls, every
    neighbour dictionary is stored under its own ['address'] and holds a
    connection from this node to that neighbour, whose queue exists; so a
    [send] to that address, with an upload rate that is not negative, runs
    to its end and never raises. *)
Theorem neighbors_wired network speed loc addr sim calls K d upload_rate msg :
  neighbors (run_calls calls ((Node_init network speed loc addr).1, sim)).1 !! K = Some d →
  (0 ≤ upload_rate)%Z →
  nb_address d = K ∧
  (∃ c, nb_connection d = Some c ∧ origin_node c = addr ∧ destination_node c = K ∧
        (conn_id c < length (stores (run_calls calls
                                       ((Node_init network speed loc addr).1, sim)).2))%nat) ∧
  ∃ sim',
    run_alone (send K upload_rate msg) 2 SendStart
              (run_calls calls ((Node_init network speed loc addr).1, sim)) =
    (Return, ((run_calls calls ((Node_init network speed loc addr).1, sim)).1, sim')).
Proof.
  intros Hd Hrate.
  destruct (wired_run_calls calls (Node_init network speed loc addr).1 sim) as [_ Hw].
  { intros k d0. simpl. by rewrite lookup_empty. }
  destruct (Hw K d Hd) as (Ha & c & Hc & Ho & Hdest & Hid).
  split; [done|]. split; [by exists c|].
  destruct (run_calls calls ((Node_init network speed loc addr).1, sim)) as [self' sim'].
  eexists. by apply (send_completes _ _ _ _ _ d c).
Qed.

Lemma neighbors_wired_witness :
  let d := mkNeighbor (Some (mkConnection 0 "a" "b")) GenesisBlock "Tokyo" "b"
                      {[ "t1"; "" ]} {[ "h1"; "" ]} in
  let calls := [AddNeighbors [node_b0]; MarkBlock [] "h1" "b"; MarkTransaction [] "t1" "b"] in
  nb_address d = "b" ∧
  (∃ c, nb_connection d = Some c ∧ origin_node c = "a" ∧ destination_node c = "b" ∧
        (conn_id c < length (stores (run_calls calls
                                       ((Node_init [] 10 "Ohio" "a").1, sim0)).2))%nat) ∧
  ∃ sim',
    run_alone (send "b" 5 "tx1") 2 SendStart
              (run_calls calls ((Node_init [] 10 "Ohio" "a").1, sim0)) =
    (Return, ((run_calls calls ((Node_init [] 10 "Ohio" "a").1, sim0)).1, sim')).
Proof.
  apply (neighbors_wired [] 10 "Ohio" "a" sim0
           [AddNeighbors [node_b0]; MarkBlock [] "h1" "b"; MarkTransaction [] "t1" "b"]
           "b").
  - vm_compute. reflexivity.
  - lia.
Defined.
